(** * MIRGE-Com example drivers: stepping loop, step policy, health check

    A shallow embedding of the control logic of
    - [examples/generic-parallel-driver.py] (the generic stepping loop),
    - [examples/scalar-lump-mpi.py] (pre-step policy, health check,
      graceful exit, finish check),
    - [examples/pulse.py] (finish check),
    - [mirgecom/error.py] ([compare_states], [get_field_stats]),
    followed by the properties the specification states about them.

    Python exceptions are values of [exn] carried by [result]; calls into
    user callbacks and I/O are recorded, in program order, in a list of
    events, and the mutable simulation object is an explicit [World]
    threaded through every callback. *)

From Stdlib Require Import ZArith QArith Qabs List String Ascii Bool Lia Lqa.
From Stdlib Require Import Floats DecimalString DecimalN DecimalPos.
Import ListNotations.

#[local] Set Warnings "-inexact-float".

Local Open Scope string_scope.
Local Open Scope list_scope.
Local Open Scope Z_scope.

(** ** Exceptions and results *)

Inductive exn : Type :=
| ValueError (msg : string)
| RuntimeError (msg : string).

Inductive result (A : Type) : Type :=
| Ok (a : A)
| Raise (e : exn).

Arguments Ok {A} a.
Arguments Raise {A} e.

(** ** Simulation time

    The drivers only add a step size to the time and compare times, and
    Python does so on whatever number type the simulation object hands
    over. The loop is therefore written once over the operations it uses
    and instantiated twice: with exact rationals, and with IEEE-754
    binary64 (the Python [float]). *)

Class TimeOps (T : Type) : Type := {
  tadd : T -> T -> T;      (* [a + b] *)
  tlt : T -> T -> bool;    (* [a < b] *)
  tge : T -> T -> bool     (* [a >= b] *)
}.

#[export] Instance exact_time : TimeOps Q := {|
  tadd := Qplus;
  tlt := fun a b => negb (Qle_bool b a);
  tge := fun a b => Qle_bool b a
|}.

#[export] Instance binary64_time : TimeOps float := {|
  tadd := PrimFloat.add;
  tlt := PrimFloat.ltb;
  tge := fun a b => PrimFloat.leb b a
|}.

(** ** Binary64 numbers

    Python floats and the entries of the arrays are IEEE-754 binary64
    numbers: Rocq's primitive floats, whose operations are specified by
    [SpecFloat]. *)

Module Binary64.

(** Where a float sits in the order of [SFcompare]: its class (infinities
    outermost, zeros in the middle), then exponent and mantissa, both
    negated for a negative number. *)
Definition key (x : spec_float) : Z * Z * Z :=
  match x with
  | S754_nan => (0, 0, 0)
  | S754_zero _ => (0, 0, 0)
  | S754_infinity s => (if s then -2 else 2, 0, 0)
  | S754_finite s m e =>
    if s then (-1, - e, Z.neg m) else (1, e, Z.pos m)
  end.

Definition key_lt (a b : Z * Z * Z) : Prop :=
  let '(c1, e1, m1) := a in
  let '(c2, e2, m2) := b in
  c1 < c2 \/ (c1 = c2 /\ (e1 < e2 \/ (e1 = e2 /\ m1 < m2))).

(** How two floats compare: both are ordered by their keys, or one of
    them is NaN and every comparison is false. *)
Inductive float_order (x y : float) : Prop :=
| order_lt :
    key_lt (key (Prim2SF x)) (key (Prim2SF y)) ->
    (x <? y)%float = true -> (x <=? y)%float = true ->
    (x =? y)%float = false ->
    (y <? x)%float = false -> (y <=? x)%float = false ->
    (y =? x)%float = false -> float_order x y
| order_eq :
    key (Prim2SF x) = key (Prim2SF y) ->
    (x <? y)%float = false -> (x <=? y)%float = true ->
    (x =? y)%float = true ->
    (y <? x)%float = false -> (y <=? x)%float = true ->
    (y =? x)%float = true -> float_order x y
| order_gt :
    key_lt (key (Prim2SF y)) (key (Prim2SF x)) ->
    (x <? y)%float = false -> (x <=? y)%float = false ->
    (x =? y)%float = false ->
    (y <? x)%float = true -> (y <=? x)%float = true ->
    (y =? x)%float = false -> float_order x y.

End Binary64.

(** ** examples/generic-parallel-driver.py *)

Module GenericDriver.

Section Main.

Context {T : Type} {time_ops : TimeOps T}.
Context {State World RHS : Type}.

(** [user_package.MySimulationObject]: the methods [main] calls.  The
    object's own mutable data is the [World]; a callback may change it
    and may raise.  The step and time to start from, the limits and the
    initial state are read once, before the loop, and are kept as
    values. *)
Record MySimulationObject : Type := {
  timestepper_function : World -> State -> T -> T -> RHS -> World * result State;
  rhs_function : RHS;
  prestep_function : World -> Z -> T -> State -> World * result (State * T);
  poststep_function : World -> Z -> T -> State -> World * result unit;
  get_current_step_time : Z * T;
  get_step_limits : Z * T;
  initial_state : State;
  finalize_simuation : World -> World * result unit
}.

(** What the driver asks of its collaborators, with the arguments passed. *)
Inductive call : Type :=
| PrestepCall (step : Z) (time : T) (state : State)
| TimestepperCall (state : State) (t dt : T) (rhs : RHS)
| PoststepCall (step : Z) (time : T) (state : State)
| FinalizeCall.

(** The local variables of [main] that the loop updates, the world, and
    the calls made so far (oldest first). *)
Record frame : Type := {
  current_step : Z;
  current_t : T;
  current_state : State;
  world : World;
  calls : list call
}.

Inductive status : Type :=
| Completed            (* the [while] condition became false *)
| Aborted (e : exn)    (* an exception left the loop *)
| Unfinished.          (* the iteration budget of the model ran out *)

Variable usimu : MySimulationObject.

Definition step_max : Z := fst (get_step_limits usimu).
Definition t_final : T := snd (get_step_limits usimu).

(** Line 90: [(current_t < t_final) and (current_step < step_max)]. *)
Definition loop_condition (f : frame) : bool :=
  tlt (current_t f) t_final && (current_step f <? step_max).

(** Line 84: [(current_t >= t_final) or (current_step >= step_max)]. *)
Definition limits_met (step : Z) (t : T) : bool :=
  tge t t_final || (step >=? step_max).

(** Two times are ordered when [a < b] or [a >= b] holds; of the
    numbers Python compares, only a NaN is not ordered with the
    others. *)
Definition ordered (a b : T) : bool := tlt a b || tge a b.

Definition log (c : call) (w : World) (f : frame) : frame :=
  {| current_step := current_step f; current_t := current_t f;
     current_state := current_state f; world := w;
     calls := calls f ++ [c] |}.

(** Lines 92-103, one pass through the body of the [while].  The result
    is the frame after the pass, or the frame at the point where a
    callback raised. *)
Definition iteration (f : frame) : frame * result unit :=
  let step := current_step f in
  let t := current_t f in
  let (w1, pre) := prestep_function usimu (world f) step t (current_state f) in
  let f1 := log (PrestepCall step t (current_state f)) w1 f in
  match pre with
  | Raise e => (f1, Raise e)
  | Ok (state, dt) =>
    let (w2, adv) :=
      timestepper_function usimu w1 state t dt (rhs_function usimu) in
    let f2 := log (TimestepperCall state t dt (rhs_function usimu)) w2 f1 in
    match adv with
    | Raise e => (f2, Raise e)
    | Ok new_state =>
      let t' := tadd t dt in
      let step' := step + 1 in
      let (w3, post) := poststep_function usimu w2 step' t' new_state in
      let f3 := {| current_step := step'; current_t := t';
                   current_state := new_state; world := w3;
                   calls := calls f2 ++ [PoststepCall step' t' new_state] |} in
      match post with
      | Raise e => (f3, Raise e)
      | Ok _ => (f3, Ok tt)
      end
    end
  end.

(** Lines 90-103.  [budget] bounds the number of passes; [main] supplies
    [step_max - current_step], which the loop cannot exceed. *)
Fixpoint stepping (budget : nat) (f : frame) : frame * status :=
  if loop_condition f then
    match budget with
    | O => (f, Unfinished)
    | S budget' =>
      match iteration f with
      | (f', Raise e) => (f', Aborted e)
      | (f', Ok _) => stepping budget' f'
      end
    end
  else (f, Completed).

(** Lines 105-107, reached when the loop ends without an exception:
    [usimu.finalize_simuation()] and [exit()]. *)
Definition conclude (r : frame * status) : frame * status :=
  match r with
  | (f, Completed) =>
    let (w', fin) := finalize_simuation usimu (world f) in
    let f' := log FinalizeCall w' f in
    match fin with
    | Raise e => (f', Aborted e)
    | Ok _ => (f', Completed)
    end
  | other => other
  end.

(** Lines 77-82: the locals of [main] on entry to the loop. *)
Definition entry (w : World) : frame :=
  {| current_step := fst (get_current_step_time usimu);
     current_t := snd (get_current_step_time usimu);
     current_state := initial_state usimu;
     world := w;
     calls := [] |}.

(** Lines 77-107. *)
Definition main (w : World) : frame * status :=
  let f0 := entry w in
  if limits_met (current_step f0) (current_t f0)
  then (f0, Aborted (ValueError "Nothing to do, loop limits already met."))
  else conclude (stepping (Z.to_nat (step_max - current_step f0)) f0).

(** The Driver Loop as the specification words it: while
    [time < final_time AND step < max_steps], call pre-step, advance
    the state with the Timestepper, advance time and step, call
    post-step; stop normally when the condition is false, abnormally
    when a callback raises. *)
Inductive driver_loop : frame -> frame -> status -> Prop :=
| loop_exit f :
    loop_condition f = false ->
    driver_loop f f Completed
| loop_pass f w1 state dt w2 new_state w3 f' s :
    loop_condition f = true ->
    prestep_function usimu (world f) (current_step f) (current_t f)
                     (current_state f) = (w1, Ok (state, dt)) ->
    timestepper_function usimu w1 state (current_t f) dt (rhs_function usimu)
      = (w2, Ok new_state) ->
    poststep_function usimu w2 (current_step f + 1) (tadd (current_t f) dt)
                      new_state = (w3, Ok tt) ->
    driver_loop
      {| current_step := current_step f + 1;
         current_t := tadd (current_t f) dt;
         current_state := new_state;
         world := w3;
         calls := calls f ++
           [PrestepCall (current_step f) (current_t f) (current_state f);
            TimestepperCall state (current_t f) dt (rhs_function usimu);
            PoststepCall (current_step f + 1) (tadd (current_t f) dt)
                         new_state] |}
      f' s ->
    driver_loop f f' s
| loop_abort_prestep f w1 e :
    loop_condition f = true ->
    prestep_function usimu (world f) (current_step f) (current_t f)
                     (current_state f) = (w1, Raise e) ->
    driver_loop f
      {| current_step := current_step f;
         current_t := current_t f;
         current_state := current_state f;
         world := w1;
         calls := calls f ++
           [PrestepCall (current_step f) (current_t f) (current_state f)] |}
      (Aborted e)
| loop_abort_timestepper f w1 state dt w2 e :
    loop_condition f = true ->
    prestep_function usimu (world f) (current_step f) (current_t f)
                     (current_state f) = (w1, Ok (state, dt)) ->
    timestepper_function usimu w1 state (current_t f) dt (rhs_function usimu)
      = (w2, Raise e) ->
    driver_loop f
      {| current_step := current_step f;
         current_t := current_t f;
         current_state := current_state f;
         world := w2;
         calls := calls f ++
           [PrestepCall (current_step f) (current_t f) (current_state f);
            TimestepperCall state (current_t f) dt (rhs_function usimu)] |}
      (Aborted e)
| loop_abort_poststep f w1 state dt w2 new_state w3 e :
    loop_condition f = true ->
    prestep_function usimu (world f) (current_step f) (current_t f)
                     (current_state f) = (w1, Ok (state, dt)) ->
    timestepper_function usimu w1 state (current_t f) dt (rhs_function usimu)
      = (w2, Ok new_state) ->
    poststep_function usimu w2 (current_step f + 1) (tadd (current_t f) dt)
                      new_state = (w3, Raise e) ->
    driver_loop f
      {| current_step := current_step f + 1;
         current_t := tadd (current_t f) dt;
         current_state := new_state;
         world := w3;
         calls := calls f ++
           [PrestepCall (current_step f) (current_t f) (current_state f);
            TimestepperCall state (current_t f) dt (rhs_function usimu);
            PoststepCall (current_step f + 1) (tadd (current_t f) dt)
                         new_state] |}
      (Aborted e).

Definition is_timestepper_call (c : call) : bool :=
  match c with TimestepperCall _ _ _ _ => true | _ => false end.

Definition is_prestep_call (c : call) : bool :=
  match c with PrestepCall _ _ _ => true | _ => false end.

Definition is_poststep_call (c : call) : bool :=
  match c with PoststepCall _ _ _ => true | _ => false end.

(** Number of passes / Timestepper invocations recorded in a frame. *)
Definition passes (f : frame) : nat :=
  List.length (filter is_prestep_call (calls f)).

Definition timestepper_calls (f : frame) : nat :=
  List.length (filter is_timestepper_call (calls f)).

End Main.

Arguments MySimulationObject : clear implicits.
Arguments call : clear implicits.
Arguments frame : clear implicits.

(** A run with a fixed step size and collaborators that do nothing else:
    pre-step hands back the state and [dt], the Timestepper and post-step
    succeed. *)
Definition fixed_step {T : Type} (step0 : Z) (t0 : T) (limit : Z) (t_end dt : T)
    : MySimulationObject T unit unit unit :=
  {| timestepper_function := fun w state _ _ _ => (w, Ok state);
     rhs_function := tt;
     prestep_function := fun w _ _ state => (w, Ok (state, dt));
     poststep_function := fun w _ _ _ => (w, Ok tt);
     get_current_step_time := (step0, t0);
     get_step_limits := (limit, t_end);
     initial_state := tt;
     finalize_simuation := fun w => (w, Ok tt) |}.

(** The example scenario of the specification on Python floats: start
    at step 0 and time 0, [final_time = 1.0], [dt = 0.001]. *)
Definition example_scenario (limit : Z) : MySimulationObject float unit unit unit :=
  fixed_step 0 0%float limit 1%float 0.001%float.

(** [abs(a - b) <= tol] on Python floats. *)
Definition float_within (tol a b : float) : bool :=
  PrimFloat.leb (PrimFloat.abs (PrimFloat.sub a b)) tol.

(** The time after [n] passes of step size [dt], as the loop computes it:
    one addition per pass. *)
Fixpoint advance {T : Type} {time_ops : TimeOps T} (n : nat) (t dt : T) : T :=
  match n with
  | O => t
  | S n' => advance n' (tadd t dt) dt
  end.

Definition is_finalize_call {T State RHS : Type} (c : call T State RHS)
    : bool :=
  match c with FinalizeCall => true | _ => false end.

(** Post-step and finalize invocations recorded in a frame. *)
Definition poststep_calls {T State World RHS : Type}
    (f : frame T State World RHS) : nat :=
  List.length (filter is_poststep_call (calls f)).

Definition finalize_calls {T State World RHS : Type}
    (f : frame T State World RHS) : nat :=
  List.length (filter is_finalize_call (calls f)).

End GenericDriver.

(** ** mirgecom/simutil.py: the step policy *)

Module Simutil.

(** Modelled from the spec: [mirgecom.simutil.check_step], which the
    drivers import and whose source is missing.  Section 4.2: true iff
    [step modulo interval == 0]; a zero or negative interval is never
    due and divides nothing. *)
Definition check_step (step interval : Z) : bool :=
  if interval <=? 0 then false else step mod interval =? 0.

End Simutil.

(** ** examples/scalar-lump-mpi.py *)

Module ScalarLump.

(** Text handed to [logger.info]. *)
Inductive message : Type :=
| Text (s : string)
| InvalidPressure (rank : Z)          (* f"{rank=}: Invalid pressure data found." *)
| ErrorsStatus (component_errors : float * list float).  (* "------- errors=" + ", ".join(...) *)

(** The settings [main] fixes before stepping (lines 97-109) together
    with its arguments [rst_step] and [use_logmgr] and the worker's
    [rank]. *)
Record settings : Type := {
  t_final : Q;
  nstatus : Z;
  nrestart : Z;
  nviz : Z;
  nhealth : Z;
  rst_step : option Z;
  rank : Z;
  logmgr : bool;
  use_profiling : bool
}.

(** The values written in the source (lines 100-109), on the worker of
    rank [r], for a run started with [rst_step = rst]. *)
Definition source_settings (r : Z) (rst : option Z) : settings :=
  {| t_final := 5 # 1000; nstatus := 1; nrestart := 5; nviz := 1;
     nhealth := 1; rst_step := rst; rank := r; logmgr := true;
     use_profiling := false |}.

Definition finish_tol : Q := 1 # 10000000000000000.   (* 1e-16 *)
Definition exittol : float := 0.09%float.             (* .09 *)

(** [max(component_errors)] on Python floats: the items are scanned in
    order and an item replaces the largest so far when it is [>] it,
    so a NaN is never taken, and a NaN in first place is never given
    up.  [compare_fluid_solutions] yields one error per conserved
    component (mass, energy, momentum, species), so the sequence is
    never empty: it is kept as its first entry and the rest. *)
Definition py_max (l : float * list float) : float :=
  fold_left (fun largest item => if (largest <? item)%float then item
                                 else largest)
            (snd l) (fst l).

(** MPI.LOR all-reduce as one worker sees it: its own contribution
    combined with those of all the other workers. *)
Definition allreduce_LOR (others : list bool) (mine : bool) : bool :=
  fold_left orb others mine.

Section Driver.

Context {State DV : Type}.

(** External collaborators: equation of state, initializer, array
    arithmetic, and the helpers of [mirgecom.simutil]. *)
Variable dependent_vars : State -> DV.               (* eos.dependent_vars *)
Variable initializer : Q -> State.                   (* initializer(x_vec=nodes, eos=eos, t=t) *)
Variable state_sub : State -> State -> State.        (* state - exact *)
Variable check_naninf_local : DV -> bool.            (* on dv.pressure *)
Variable check_range_local : DV -> float -> float -> bool.   (* on dv.pressure *)
Variable compare_fluid_solutions : State -> State -> float * list float.
Variable check_step : Z -> Z -> bool.                (* mirgecom.simutil.check_step *)

Inductive event : Type :=
| TickBefore
| TickAfter
| SetDt (dt : Q)
| SetSimState (state : State)
| LogInfo (m : message)
| HealthChecked (state : State) (dv : DV) (exact : State)   (* [my_health_check] entered *)
| StatusComputed (component_errors : float * list float)            (* lines 316-320 *)
| Allreduce (mine all : bool)
| WriteVisfile (step : Z) (t : Q) (cv : State) (dv : DV) (exact resid : State)
| WriteRestartFile (rank step : Z) (t : Q) (state : State)
| LogmgrClose
| PrintProfile.

(** A statement sequence: what it did, and how it ended. *)
Definition action (A : Type) : Type := (list event * result A)%type.

Definition ret {A} (a : A) : action A := ([], Ok a).
Definition emit (e : event) : action unit := ([e], Ok tt).
Definition raise {A} (e : exn) : action A := ([], Raise e).
Definition bind {A B} (m : action A) (k : A -> action B) : action B :=
  match m with
  | (tr, Ok a) => let (tr', r) := k a in (tr ++ tr', r)
  | (tr, Raise e) => (tr, Raise e)
  end.
Definition when (b : bool) (m : action unit) : action unit :=
  if b then m else ret tt.

Notation "x <- m ;; k" := (bind m (fun x => k))
  (at level 61, m at next level, right associativity).
Notation "' pat <- m ;; k" := (bind m (fun x => match x with pat => k end))
  (at level 61, pat pattern, m at next level, right associativity).
Notation "m ;; k" := (bind m (fun _ => k))
  (at level 61, right associativity).

Variable cfg : settings.

(** Lines 218-231. *)
Definition my_write_viz (step : Z) (t : Q) (state : State)
    (dv : option DV) (exact resid : option State) : action unit :=
  let dv := match dv with Some d => d | None => dependent_vars state end in
  let exact := match exact with Some e => e | None => initializer t end in
  let resid := match resid with Some r => r | None => state_sub state exact end in
  emit (WriteVisfile step t state dv exact resid).

(** Lines 233-244. *)
Definition my_write_restart (step : Z) (t : Q) (state : State) : action unit :=
  emit (WriteRestartFile (rank cfg) step t state).

(** Lines 206-216. *)
Definition my_graceful_exit {A} (step : Z) (t : Q) (state : State)
    (do_viz do_restart : bool) (message : option string) : action A :=
  when (rank cfg =? 0)
       (emit (LogInfo (Text "Errors detected; attempting graceful exit."))) ;;
  when do_viz (my_write_viz step t state None None None) ;;
  when do_restart (my_write_restart step t state) ;;
  let message := match message with
                 | Some m => m
                 | None => "Fatal simulation errors detected."
                 end in
  raise (RuntimeError message).

(** Lines 246-262. *)
Definition my_health_check (state : State) (dv : DV) (exact : State)
    : action bool :=
  health_error <-
    (if check_naninf_local dv
        || check_range_local dv 0.9%float 1.1%float
     then emit (LogInfo (InvalidPressure (rank cfg))) ;; ret true
     else ret false) ;;
  let component_errors := compare_fluid_solutions state exact in
  if (exittol <? py_max component_errors)%float
  then when (rank cfg =? 0)
            (emit (LogInfo (Text "Solution diverged from exact soln."))) ;;
       ret true
  else ret health_error.

(** The verdict of [my_health_check] on [state] at time [t]. *)
Definition health_verdict (state : State) (t : Q) : bool :=
  match snd (my_health_check state (dependent_vars state) (initializer t)) with
  | Ok h => h
  | Raise _ => false
  end.

(** Lines 264-271. *)
Definition my_post_step (step : Z) (t dt : Q) (state : State)
    : action (State * Q) :=
  when (logmgr cfg)
       (emit (SetDt dt) ;; emit (SetSimState state) ;; emit TickAfter) ;;
  ret (state, dt).

(** [step == rst_step], where [rst_step] may be [None]. *)
Definition at_restart (step : Z) : bool :=
  match rst_step cfg with
  | Some s => step =? s
  | None => false
  end.

(** Lines 273-329.  [comm] is [comm.allreduce(., op=MPI.LOR)] as this
    worker sees it. *)
Definition my_pre_step (comm : bool -> bool)
    (step : Z) (t dt : Q) (state : State) : action (State * Q) :=
  when (logmgr cfg) (emit TickBefore) ;;
  let do_viz := check_step step (nviz cfg) in
  let do_restart := check_step step (nrestart cfg) in
  let do_health := check_step step (nhealth cfg) in
  let do_status := check_step step (nstatus cfg) in
  let do_viz := if at_restart step then false else do_viz in
  let do_restart := if at_restart step then false else do_restart in
  '(dv, exact, pre_step_errors) <-
    (if do_health then
       let dv := dependent_vars state in
       let exact := initializer t in
       emit (HealthChecked state dv exact) ;;
       health_errors <- my_health_check state dv exact ;;
       let all := comm health_errors in
       emit (Allreduce health_errors all) ;;
       when (all && (rank cfg =? 0))
            (emit (LogInfo (Text "Fluid solution failed health check."))) ;;
       ret (Some dv, Some exact, false || all)
     else ret (None, None, false)) ;;
  when do_restart (my_write_restart step t state) ;;
  '(dv, exact) <-
    (if do_viz then
       let dv := match dv with Some d => d | None => dependent_vars state end in
       let exact := match exact with Some e => e | None => initializer t end in
       let resid := state_sub state exact in
       my_write_viz step t state (Some dv) (Some exact) (Some resid) ;;
       ret (Some dv, Some exact)
     else ret (dv, exact)) ;;
  when do_status
       (let exact := match exact with Some e => e | None => initializer t end in
        let component_errors := compare_fluid_solutions state exact in
        emit (StatusComputed component_errors) ;;
        when (rank cfg =? 0) (emit (LogInfo (ErrorsStatus component_errors)))) ;;
  when pre_step_errors
       (my_graceful_exit step t state (negb do_viz) (negb do_restart)
                         (Some "Error detected at prestep, exiting.")) ;;
  ret (state, dt).

(** The two conditions [my_pre_step] acts on: the reduced health check
    reports an error at this step; a periodic action with the given
    interval is due and the step is not the one restarted from. *)
Definition failed (comm : bool -> bool) (step : Z) (t : Q) (state : State)
    : bool :=
  check_step step (nhealth cfg) && comm (health_verdict state t).

Definition periodic (step interval : Z) : bool :=
  negb (at_restart step) && check_step step interval.

(** Lines 342-362: what [main] does with the triple that
    [advance_state] returned. *)
Definition main_after_advance (current_step : Z) (current_t : Q)
    (current_state : State) : action unit :=
  when (negb (Qle_bool (Qabs (current_t - t_final cfg)) finish_tol))
       (my_graceful_exit current_step current_t current_state true true
                         (Some "Simulation timestepping did not complete.")) ;;
  when (rank cfg =? 0) (emit (LogInfo (Text "Checkpointing final state ..."))) ;;
  let final_dv := dependent_vars current_state in
  let final_exact := initializer current_t in
  let final_resid := state_sub current_state final_exact in
  my_write_viz current_step current_t current_state
               (Some final_dv) (Some final_exact) (Some final_resid) ;;
  my_write_restart current_step current_t current_state ;;
  if logmgr cfg then emit LogmgrClose
  else when (use_profiling cfg) (emit PrintProfile).

End Driver.

(** A distributed run: one instance of the driver per worker, all with
    the same settings but their own rank and their own part of the
    state. *)
Definition with_rank (cfg : settings) (r : Z) : settings :=
  {| t_final := t_final cfg; nstatus := nstatus cfg;
     nrestart := nrestart cfg; nviz := nviz cfg; nhealth := nhealth cfg;
     rst_step := rst_step cfg; rank := r; logmgr := logmgr cfg;
     use_profiling := use_profiling cfg |}.

(** What the workers other than the [i]-th contribute to a reduction. *)
Definition others {A} (i : nat) (l : list A) : list A :=
  firstn i l ++ skipn (S i) l.

Section Distributed.

Context {State DV : Type}.
Variable dependent_vars : State -> DV.
Variable initializer : Q -> State.
Variable state_sub : State -> State -> State.
Variable check_naninf_local : DV -> bool.
Variable check_range_local : DV -> float -> float -> bool.
Variable compare_fluid_solutions : State -> State -> float * list float.
Variable check_step : Z -> Z -> bool.
Variable cfg : settings.

(** The local verdict of the worker of rank [fst w] holding [snd w]. *)
Definition local_flag (t : Q) (w : Z * State) : bool :=
  health_verdict dependent_vars initializer check_naninf_local
    check_range_local compare_fluid_solutions (with_rank cfg (fst w))
    (snd w) t.

(** [my_pre_step] on the [i]-th worker [w] of the run [workers]. *)
Definition worker_pre_step (workers : list (Z * State)) (i : nat)
    (w : Z * State) (step : Z) (t dt : Q) : action (State * Q) :=
  my_pre_step dependent_vars initializer state_sub check_naninf_local
    check_range_local compare_fluid_solutions check_step
    (with_rank cfg (fst w))
    (allreduce_LOR (others i (map (local_flag t) workers)))
    step t dt (snd w).

End Distributed.

(** Events of interest in a trace. *)
Definition is_viz_write {State DV} (step : Z) (e : @event State DV) : bool :=
  match e with
  | WriteVisfile s _ _ _ _ _ => s =? step
  | _ => false
  end.

Definition is_restart_write {State DV} (step : Z) (e : @event State DV) : bool :=
  match e with
  | WriteRestartFile _ s _ _ => s =? step
  | _ => false
  end.

Definition is_health_check {State DV} (e : @event State DV) : bool :=
  match e with
  | HealthChecked _ _ _ => true
  | _ => false
  end.

Definition is_status {State DV} (e : @event State DV) : bool :=
  match e with
  | StatusComputed _ => true
  | _ => false
  end.

Definition is_status_log {State DV} (e : @event State DV) : bool :=
  match e with
  | LogInfo (ErrorsStatus _) => true
  | _ => false
  end.

(** What [my_health_check] itself hands to the logger. *)
Definition is_health_log {State DV} (e : @event State DV) : bool :=
  match e with
  | LogInfo (Text _) | LogInfo (InvalidPressure _) => true
  | _ => false
  end.

Definition count {A} (p : A -> bool) (l : list A) : nat :=
  List.length (filter p l).

Definition b2n (b : bool) : nat := if b then 1%nat else 0%nat.

(** Sample collaborators for concrete runs: the state is one flag saying
    whether its pressure is invalid, the settings are those written in
    the source and the step policy is that of the specification. *)
Definition sample_pre_step (cfg : settings) (comm : bool -> bool)
    (step : Z) (state : bool) : action (bool * Q) :=
  my_pre_step (fun s => s) (fun _ => false) xorb
    (fun dv => dv) (fun _ _ _ => false) (fun _ _ => (0%float, []))
    Simutil.check_step cfg comm step (5 # 1000) (1 # 1000) state.

(** More ways to look at a trace. *)
Definition is_allreduce {State DV} (e : @event State DV) : bool :=
  match e with
  | Allreduce _ _ => true
  | _ => false
  end.

Definition is_viz {State DV} (e : @event State DV) : bool :=
  match e with
  | WriteVisfile _ _ _ _ _ _ => true
  | _ => false
  end.

Definition is_restart {State DV} (e : @event State DV) : bool :=
  match e with
  | WriteRestartFile _ _ _ _ => true
  | _ => false
  end.

Definition is_logmgr_close {State DV} (e : @event State DV) : bool :=
  match e with
  | LogmgrClose => true
  | _ => false
  end.

Definition is_print_profile {State DV} (e : @event State DV) : bool :=
  match e with
  | PrintProfile => true
  | _ => false
  end.

(** A file written under this worker's rank for exactly this step, time
    and state; events that write nothing qualify. *)
Definition own_write {State DV} (cfg : settings) (step : Z) (t : Q)
    (state : State) (e : @event State DV) : Prop :=
  match e with
  | WriteVisfile s t' cv _ _ _ => s = step /\ t' = t /\ cv = state
  | WriteRestartFile r s t' st =>
    r = rank cfg /\ s = step /\ t' = t /\ st = state
  | _ => True
  end.

(** No reduction is entered after a file has been written. *)
Fixpoint reductions_first {State DV} (tr : list (@event State DV)) : bool :=
  match tr with
  | [] => true
  | e :: tr' =>
    (negb (is_viz e || is_restart e) || negb (existsb is_allreduce tr'))
    && reductions_first tr'
  end.

(** *** Restart files: their names *)

(** [str(n)] for a natural number. *)
Definition decimal (n : N) : string := NilZero.string_of_uint (N.to_uint n).

Fixpoint zeros (k : nat) : string :=
  match k with
  | O => EmptyString
  | S k' => String "0" (zeros k')
  end.

(** The format specification [0<width>d]: the decimal digits, padded
    with zeros between the sign and the digits up to [width]
    characters. *)
Definition format_d (width : nat) (z : Z) : string :=
  let digits := decimal (Z.abs_N z) in
  if z <? 0
  then String "-" (zeros (width - 1 - String.length digits) ++ digits)%string
  else (zeros (width - String.length digits) ++ digits)%string.

Definition rst_path : string := "restart_data/".

(** Lines 132-135 with 137 and 234:
    [rst_pattern.format(cname=casename, step=step, rank=rank)]. *)
Definition rst_fname (casename : string) (step rank : Z) : string :=
  (rst_path ++ casename ++ "-" ++ format_d 4 step ++ "-" ++ format_d 4 rank
   ++ ".pkl")%string.

(** A decimal digit. *)
Definition is_digit (c : ascii) : bool :=
  match uint_of_char c (Some Decimal.Nil) with
  | Some _ => true
  | None => false
  end.

Fixpoint all_digits (s : string) : bool :=
  match s with
  | EmptyString => true
  | String c s' => is_digit c && all_digits s'
  end.

(** The number a string of digits denotes. *)
Definition digits_value (s : string) : option N :=
  option_map N.of_uint (NilEmpty.uint_of_string s).

(** *** Restart files: their contents *)

(** What can go wrong while [main] takes the mesh out of restart data:
    a key is missing, an object does not support what is asked of it,
    or the assertion fails. *)
Inductive restart_error : Type :=
| KeyError (key : string)
| ObjectError
| AssertionError.

Section Dictionary.

(** The Python objects a restart dictionary holds. *)
Context {Obj : Type}.

(** Lines 235-242: the dictionary [my_write_restart] hands to
    [write_restart_file]. *)
Definition rst_data (local_mesh state t step global_nelements nparts : Obj)
    : list (string * Obj) :=
  [("local_mesh", local_mesh); ("state", state); ("t", t); ("step", step);
   ("global_nelements", global_nelements); ("num_parts", nparts)].

(** [d[key]]. *)
Fixpoint getitem (d : list (string * Obj)) (key : string)
    : restart_error + Obj :=
  match d with
  | [] => inl (KeyError key)
  | (k, v) :: d' => if String.eqb k key then inr v else getitem d' key
  end.

(** [local_mesh.nelements], and the truth of [x == nparts]. *)
Variable nelements : Obj -> restart_error + Obj.
Variable equals : Obj -> Z -> restart_error + bool.

(** Lines 141-144: the mesh, its element count and the global element
    count, taken from restart data that has been read. *)
Definition mesh_from_restart (restart_data : list (string * Obj)) (nparts : Z)
    : restart_error + (Obj * Obj * Obj) :=
  match getitem restart_data "local_mesh" with
  | inl e => inl e
  | inr local_mesh =>
    match nelements local_mesh with
    | inl e => inl e
    | inr local_nelements =>
      match getitem restart_data "global_nelements" with
      | inl e => inl e
      | inr global_nelements =>
        match getitem restart_data "nparts" with
        | inl e => inl e
        | inr found =>
          match equals found nparts with
          | inl e => inl e
          | inr true => inr (local_mesh, local_nelements, global_nelements)
          | inr false => inl AssertionError
          end
        end
      end
    end
  end.

End Dictionary.

(** [if rst_step:], for an integer or [None]. *)
Definition truthy (rst_step : option Z) : bool :=
  match rst_step with
  | Some z => negb (z =? 0)
  | None => false
  end.

(** Lines 109 and 178-180: the step a run starts from. *)
Definition first_step (rst_step : option Z) : Z :=
  match rst_step with
  | Some z => if truthy rst_step then z else 0
  | None => 0
  end.

End ScalarLump.

(** ** examples/pulse.py *)

Module Pulse.

Section Driver.

Context {State : Type}.

(** [mirgecom.simutil.sim_checkpoint], reached through [my_checkpoint]
    (lines 125-129); it may raise. *)
Variable sim_checkpoint : Z -> Q -> Q -> State -> result unit.

Inductive event : Type :=
| LogInfo (s : string)
| Checkpoint (step : Z) (t dt : Q) (state : State).

Definition t_final : Q := 1.        (* line 72 *)
Definition checkpoint_t : Q := 0.   (* line 89 *)
Definition rank : Z := 0.           (* line 88 *)

(** Lines 136-144: what [main] does with the triple that
    [advance_state] returned. *)
Definition main_after_advance (current_step : Z) (current_t : Q)
    (current_state : State) : list event * result unit :=
  let (tr, r) :=
    if rank =? 0 then
      ([LogInfo "Checkpointing final state ...";
        Checkpoint current_step current_t (current_t - checkpoint_t)
                   current_state],
       sim_checkpoint current_step current_t (current_t - checkpoint_t)
                      current_state)
    else ([], Ok tt) in
  match r with
  | Raise e => (tr, Raise e)
  | Ok _ =>
    if negb (Qle_bool 0 (current_t - t_final))
    then (tr, Raise (ValueError "Simulation exited abnormally"))
    else (tr, Ok tt)
  end.

End Driver.

End Pulse.

(** ** mirgecom/error.py *)

Module Error.

(** A field is the array [field.get()] brings to the host: binary64
    numbers, here in one dimension; a state is the object array of its
    fields.  Both follow numpy's array arithmetic. *)
Definition field : Type := list float.
Definition state : Type := list field.

(** The list comprehension of line 33: fields are visited in order and
    the first exception ends it. *)
Fixpoint comprehension {A B} (f : A -> result B) (l : list A)
    : result (list B) :=
  match l with
  | [] => Ok []
  | x :: l' =>
    match f x with
    | Raise e => Raise e
    | Ok y =>
      match comprehension f l' with
      | Raise e => Raise e
      | Ok ys => Ok (y :: ys)
      end
    end
  end.

(** Broadcasting of two one-dimensional arrays: equal lengths stay, a
    length of one adapts to the other length, and any other pair of
    lengths is rejected. *)
Definition broadcast_length (n m : nat) : option nat :=
  if (n =? m)%nat then Some n
  else if (n =? 1)%nat then Some m
  else if (m =? 1)%nat then Some n
  else None.

(** An array of a single entry repeats it [n] times. *)
Definition stretch {A} (n : nat) (a : list A) : list A :=
  match a with
  | [x] => repeat x n
  | _ => a
  end.

Definition shape (n : nat) : string :=
  "(" ++ ScalarLump.decimal (N.of_nat n) ++ ",)".

(** The pairs of entries an elementwise operation combines. *)
Definition paired {A} (a b : list A) : result (list (A * A)) :=
  match broadcast_length (List.length a) (List.length b) with
  | Some n => Ok (combine (stretch n a) (stretch n b))
  | None =>
    Raise (ValueError
      ("operands could not be broadcast together with shapes "
       ++ shape (List.length a) ++ " " ++ shape (List.length b) ++ " "))
  end.

(** Elementwise combination of two arrays, in the order of the
    entries. *)
Definition elementwise {A B} (f : A -> A -> result B) (a b : list A)
    : result (list B) :=
  match paired a b with
  | Raise e => Raise e
  | Ok ps => comprehension (fun p => f (fst p) (snd p)) ps
  end.

Definition field_sub : field -> field -> result field :=
  elementwise (fun x y => Ok (x - y)%float).

(** [red_state - blue_state]. *)
Definition state_sub : state -> state -> result state :=
  elementwise field_sub.

Definition np_abs (a : field) : field := map PrimFloat.abs a.

(** [np.maximum] and [np.minimum], with which [np.max] and [np.min]
    scan an array: the larger (smaller) of the two, and NaN as soon as
    one of them is NaN. *)
Definition maximum (a b : float) : float :=
  if (b <=? a)%float || PrimFloat.is_nan a then a else b.

Definition minimum (a b : float) : float :=
  if (a <=? b)%float || PrimFloat.is_nan a then a else b.

(** [np.max] raises [ValueError] on an array without elements. *)
Definition np_max (a : field) : result float :=
  match a with
  | [] => Raise (ValueError
      "zero-size array to reduction operation maximum which has no identity")
  | x :: xs => Ok (fold_left maximum xs x)
  end.

(** Lines 30-34. *)
Definition compare_states (red_state blue_state : state)
    : result (list float) :=
  match state_sub red_state blue_state with
  | Raise e => Raise e
  | Ok resid => comprehension (fun r => np_max (np_abs r)) resid
  end.

(** What [np.max] and [np.min] yield on an array with entries, stated
    without reference to how it is computed: NaN if the array holds a
    NaN, otherwise an entry that no entry exceeds (falls below). *)
Definition largest (a : field) (m : float) : Prop :=
  if existsb PrimFloat.is_nan a then PrimFloat.is_nan m = true
  else In m a /\ Forall (fun x => (x <=? m)%float = true) a.

Definition smallest (a : field) (m : float) : Prop :=
  if existsb PrimFloat.is_nan a then PrimFloat.is_nan m = true
  else In m a /\ Forall (fun x => (m <=? x)%float = true) a.

(** The largest absolute difference between the entries two fields
    pair up. *)
Definition max_abs_difference (red blue : field) (m : float) : Prop :=
  exists ps, paired red blue = Ok ps /\
             largest (map (fun p => abs (fst p - snd p))%float ps) m.

(** Corresponding fields have the same, non-zero number of entries. *)
Definition conforming (red_state blue_state : state) : Prop :=
  Forall2 (fun r b => List.length r = List.length b /\ r <> [])
          red_state blue_state.

(** Corresponding fields have entries and can be broadcast against
    each other. *)
Definition broadcastable (red_state blue_state : state) : Prop :=
  Forall2 (fun r b => broadcast_length (List.length r) (List.length b) <> None
                      /\ r <> [] /\ b <> [])
          red_state blue_state.

(** [np.min] raises [ValueError] on an array without elements. *)
Definition np_min (a : field) : result float :=
  match a with
  | [] => Raise (ValueError
      "zero-size array to reduction operation minimum which has no identity")
  | x :: xs => Ok (fold_left minimum xs x)
  end.

(** Lines 37-41.  [flat_obj_array] is pytools' and is handed the list of
    minima and the list of maxima; all minima are computed before the
    first maximum. *)
Definition get_field_stats {R : Type}
    (flat_obj_array : list float -> list float -> result R) (state : state)
    : result R :=
  match comprehension np_min state with
  | Raise e => Raise e
  | Ok field_mins =>
    match comprehension np_max state with
    | Raise e => Raise e
    | Ok field_maxs => flat_obj_array field_mins field_maxs
    end
  end.

(** A stand-in for [flat_obj_array] that keeps its two arguments apart. *)
Definition keep_both (field_mins field_maxs : list float)
    : result (list float * list float) :=
  Ok (field_mins, field_maxs).

(** The smallest and the largest entry of a field. *)
Definition extrema (f : field) (lo hi : float) : Prop :=
  smallest f lo /\ largest f hi.

(** Corresponding fields have the same number of entries. *)
Definition same_shape (red_state blue_state : state) : Prop :=
  Forall2 (fun r b => List.length r = List.length b) red_state blue_state.

End Error.

(** * Properties *)

(** ** Binary64 numbers: order, absolute value, subtraction *)

Module Binary64Facts.
Import Binary64.


Lemma SFcompare_key (x y : spec_float) :
  x <> S754_nan -> y <> S754_nan ->
  (SFcompare x y = Some Lt /\ key_lt (key x) (key y)) \/
  (SFcompare x y = Some Eq /\ key x = key y) \/
  (SFcompare x y = Some Gt /\ key_lt (key y) (key x)).
Proof.
  intros Nx Ny.
  destruct x as [sx|sx| |sx mx ex], y as [sy|sy| |sy my ey];
    try contradiction; cbn;
    try destruct sx; try destruct sy; cbn; try (intuition lia).
  - destruct (Z.compare_spec ex ey) as [E|L|G]; cbn; try (intuition lia).
    change (Pos.compare_cont Eq mx my) with (Pos.compare mx my).
    destruct (Pos.compare_spec mx my); cbn; subst; intuition lia.
  - destruct (Z.compare_spec ex ey) as [E|L|G]; cbn; try (intuition lia).
    change (Pos.compare_cont Eq mx my) with (Pos.compare mx my).
    destruct (Pos.compare_spec mx my); cbn; subst; intuition lia.
Qed.


Lemma is_nan_iff (x : float) :
  PrimFloat.is_nan x = true <-> Prim2SF x = S754_nan.
Proof.
  unfold PrimFloat.is_nan. rewrite eqb_spec. unfold SFeqb.
  destruct (Prim2SF x) as [s|s| |s m e]; cbn.
  - destruct s; split; discriminate.
  - destruct s; split; discriminate.
  - split; reflexivity.
  - rewrite Z.compare_refl, Pos.compare_cont_refl.
    destruct s; split; discriminate.
Qed.

Lemma not_nan_iff (x : float) :
  PrimFloat.is_nan x = false <-> Prim2SF x <> S754_nan.
Proof.
  rewrite <- is_nan_iff. destruct (PrimFloat.is_nan x); split; congruence.
Qed.

Lemma key_lt_irrefl (a : Z * Z * Z) : ~ key_lt a a.
Proof. destruct a as [[c e] m]. cbn. lia. Qed.

Lemma key_lt_asym (a b : Z * Z * Z) : key_lt a b -> ~ key_lt b a.
Proof. destruct a as [[c e] m], b as [[c' e'] m']. cbn. lia. Qed.

Lemma key_lt_trans (a b c : Z * Z * Z) :
  key_lt a b -> key_lt b c -> key_lt a c.
Proof.
  destruct a as [[? ?] ?], b as [[? ?] ?], c as [[? ?] ?]. cbn. lia.
Qed.

Lemma compare_floats (x y : float) :
  PrimFloat.is_nan x = false -> PrimFloat.is_nan y = false ->
  float_order x y.
Proof.
  intros Nx Ny. apply not_nan_iff in Nx, Ny.
  destruct (SFcompare_key _ _ Nx Ny) as [(C & K)|[(C & K)|(C & K)]];
    [ destruct (SFcompare_key _ _ Ny Nx) as [(C' & K')|[(C' & K')|(C' & K')]];
      [ now apply key_lt_asym in K
      | rewrite K' in K; now apply key_lt_irrefl in K
      | apply order_lt ]
    | destruct (SFcompare_key _ _ Ny Nx) as [(C' & K')|[(C' & K')|(C' & K')]];
      [ rewrite K in K'; now apply key_lt_irrefl in K'
      | apply order_eq
      | rewrite K in K'; now apply key_lt_irrefl in K' ]
    | destruct (SFcompare_key _ _ Ny Nx) as [(C' & K')|[(C' & K')|(C' & K')]];
      [ apply order_gt
      | rewrite K' in K; now apply key_lt_irrefl in K
      | now apply key_lt_asym in K ] ];
    trivial;
    rewrite ?ltb_spec, ?leb_spec, ?eqb_spec; unfold SFltb, SFleb, SFeqb;
    rewrite ?C, ?C'; reflexivity.
Qed.

(** Every comparison with a NaN is false. *)
Lemma compare_nan (x y : float) :
  PrimFloat.is_nan x = true ->
  (x <? y)%float = false /\ (x <=? y)%float = false /\
  (x =? y)%float = false /\ (y <? x)%float = false /\
  (y <=? x)%float = false /\ (y =? x)%float = false.
Proof.
  intros N. apply is_nan_iff in N.
  rewrite !ltb_spec, !leb_spec, !eqb_spec, N.
  unfold SFltb, SFleb, SFeqb. cbn. destruct (Prim2SF y); repeat split.
Qed.


(** *** The order of the floats that are not NaN *)

Lemma leb_not_nan (x y : float) :
  (x <=? y)%float = true ->
  PrimFloat.is_nan x = false /\ PrimFloat.is_nan y = false.
Proof.
  intros H. split.
  - destruct (PrimFloat.is_nan x) eqn:N; trivial.
    destruct (compare_nan x y N) as (_ & E & _). congruence.
  - destruct (PrimFloat.is_nan y) eqn:N; trivial.
    destruct (compare_nan y x N) as (_ & _ & _ & _ & E & _). congruence.
Qed.

Lemma ltb_not_nan (x y : float) :
  (x <? y)%float = true ->
  PrimFloat.is_nan x = false /\ PrimFloat.is_nan y = false.
Proof.
  intros H. split.
  - destruct (PrimFloat.is_nan x) eqn:N; trivial.
    destruct (compare_nan x y N) as (E & _). congruence.
  - destruct (PrimFloat.is_nan y) eqn:N; trivial.
    destruct (compare_nan y x N) as (_ & _ & _ & E & _). congruence.
Qed.

Lemma eqb_not_nan (x y : float) :
  (x =? y)%float = true ->
  PrimFloat.is_nan x = false /\ PrimFloat.is_nan y = false.
Proof.
  intros H. split.
  - destruct (PrimFloat.is_nan x) eqn:N; trivial.
    destruct (compare_nan x y N) as (_ & _ & E & _). congruence.
  - destruct (PrimFloat.is_nan y) eqn:N; trivial.
    destruct (compare_nan y x N) as (_ & _ & _ & _ & _ & E). congruence.
Qed.

Lemma leb_refl (x : float) :
  PrimFloat.is_nan x = false -> (x <=? x)%float = true.
Proof.
  intros N. destruct (compare_floats x x N N) as [K| |K]; trivial;
    now apply key_lt_irrefl in K.
Qed.

Lemma leb_key (x y : float) :
  (x <=? y)%float = true <->
  PrimFloat.is_nan x = false /\ PrimFloat.is_nan y = false /\
  (key_lt (key (Prim2SF x)) (key (Prim2SF y)) \/
   key (Prim2SF x) = key (Prim2SF y)).
Proof.
  split.
  - intros H. destruct (leb_not_nan x y H) as [Nx Ny].
    repeat split; trivial.
    destruct (compare_floats x y Nx Ny); auto; congruence.
  - intros (Nx & Ny & [K|K]); destruct (compare_floats x y Nx Ny) as [K'| |K'];
      trivial.
    + now apply key_lt_asym in K.
    + rewrite K in K'. now apply key_lt_irrefl in K'.
Qed.

Lemma ltb_key (x y : float) :
  (x <? y)%float = true <->
  PrimFloat.is_nan x = false /\ PrimFloat.is_nan y = false /\
  key_lt (key (Prim2SF x)) (key (Prim2SF y)).
Proof.
  split.
  - intros H. destruct (ltb_not_nan x y H) as [Nx Ny].
    repeat split; trivial.
    destruct (compare_floats x y Nx Ny); auto; congruence.
  - intros (Nx & Ny & K); destruct (compare_floats x y Nx Ny) as [K'|K'|K'];
      trivial.
    + rewrite K' in K. now apply key_lt_irrefl in K.
    + now apply key_lt_asym in K.
Qed.

Lemma eqb_key (x y : float) :
  (x =? y)%float = true <->
  PrimFloat.is_nan x = false /\ PrimFloat.is_nan y = false /\
  key (Prim2SF x) = key (Prim2SF y).
Proof.
  split.
  - intros H. destruct (eqb_not_nan x y H) as [Nx Ny].
    repeat split; trivial.
    destruct (compare_floats x y Nx Ny); auto; congruence.
  - intros (Nx & Ny & K); destruct (compare_floats x y Nx Ny) as [K'|K'|K'];
      trivial.
    + rewrite K in K'. now apply key_lt_irrefl in K'.
    + rewrite K in K'. now apply key_lt_irrefl in K'.
Qed.

Lemma leb_trans (x y z : float) :
  (x <=? y)%float = true -> (y <=? z)%float = true -> (x <=? z)%float = true.
Proof.
  rewrite !leb_key. intros (Nx & Ny & K1) (_ & Nz & K2).
  repeat split; trivial.
  destruct K1 as [K1|K1], K2 as [K2|K2].
  - left. now apply key_lt_trans with (key (Prim2SF y)).
  - left. now rewrite <- K2.
  - left. now rewrite K1.
  - right. congruence.
Qed.

Lemma ltb_leb_trans (x y z : float) :
  (x <? y)%float = true -> (y <=? z)%float = true -> (x <? z)%float = true.
Proof.
  rewrite !ltb_key, leb_key. intros (Nx & Ny & K1) (_ & Nz & K2).
  repeat split; trivial.
  destruct K2 as [K2|K2].
  - now apply key_lt_trans with (key (Prim2SF y)).
  - now rewrite <- K2.
Qed.

Lemma ltb_leb (x y : float) :
  (x <? y)%float = true -> (x <=? y)%float = true.
Proof.
  rewrite ltb_key, leb_key. intros (Nx & Ny & K). repeat split; auto.
Qed.

Lemma ltb_trans (x y z : float) :
  (x <? y)%float = true -> (y <? z)%float = true -> (x <? z)%float = true.
Proof.
  intros H1 H2. apply ltb_leb_trans with y; [exact H1|now apply ltb_leb].
Qed.

(** Of two floats that are not NaN one is [<] the other or the other is
    [<=] the one. *)
Lemma ltb_or_leb (x y : float) :
  PrimFloat.is_nan x = false -> PrimFloat.is_nan y = false ->
  (x <? y)%float = true \/ (y <=? x)%float = true.
Proof.
  intros Nx Ny. destruct (compare_floats x y Nx Ny); auto.
Qed.

Lemma leb_total (x y : float) :
  PrimFloat.is_nan x = false -> PrimFloat.is_nan y = false ->
  (x <=? y)%float = true \/ (y <=? x)%float = true.
Proof.
  intros Nx Ny. destruct (compare_floats x y Nx Ny); auto.
Qed.

Lemma leb_antisym (x y : float) :
  (x <=? y)%float = true -> (y <=? x)%float = true -> (x =? y)%float = true.
Proof.
  rewrite !leb_key, eqb_key. intros (Nx & Ny & K1) (_ & _ & K2).
  repeat split; trivial.
  destruct K1 as [K1|K1]; trivial. destruct K2 as [K2|K2]; [|congruence].
  now apply key_lt_asym in K1.
Qed.

Lemma eqb_leb (x y : float) :
  (x =? y)%float = true -> (x <=? y)%float = true /\ (y <=? x)%float = true.
Proof.
  rewrite !leb_key, eqb_key. intros (Nx & Ny & K). repeat split; auto.
Qed.

(** *** Absolute value *)

Lemma abs_nan (x : float) : PrimFloat.is_nan (abs x) = PrimFloat.is_nan x.
Proof.
  apply eq_true_iff_eq. rewrite !is_nan_iff, abs_spec.
  destruct (Prim2SF x); cbn; split; congruence.
Qed.

Lemma abs_nonneg (x : float) :
  PrimFloat.is_nan x = false -> (0 <=? abs x)%float = true.
Proof.
  intros N. apply not_nan_iff in N. rewrite leb_spec, abs_spec.
  change (Prim2SF 0) with (S754_zero false).
  destruct (Prim2SF x); try reflexivity. now contradiction N.
Qed.

Lemma abs_eq_zero (x : float) :
  (abs x =? 0)%float = true -> (x =? 0)%float = true.
Proof.
  rewrite !eqb_spec, abs_spec. change (Prim2SF 0) with (S754_zero false).
  destruct (Prim2SF x) as [s|s| |s m e]; cbn; intros H;
    try reflexivity; discriminate H.
Qed.

(** *** Subtraction *)

(** The sign handed to the rounding of a non-zero result shows in the
    sign of the result only. *)
Lemma binary_round_abs (s : bool) (m : positive) (e : Z) :
  SFabs (binary_round prec emax s m e) =
  SFabs (binary_round prec emax (negb s) m e).
Proof.
  unfold binary_round, binary_round_aux.
  destruct (shl_align _ _ _) as [mz ez].
  destruct (shr_fexp _ _ _ _ _) as [mrs' e'].
  destruct (shr_fexp _ _ _ _ _) as [mrs'' e''].
  destruct (shr_m mrs''); trivial.
  destruct (Z.leb _ _); reflexivity.
Qed.

Lemma binary_normalize_abs (m e : Z) :
  SFabs (binary_normalize prec emax m e false) =
  SFabs (binary_normalize prec emax (- m) e false).
Proof.
  destruct m as [|p|p]; cbn; trivial.
  - apply (binary_round_abs false).
  - apply (binary_round_abs true).
Qed.

Lemma SFsub_abs_sym (x y : spec_float) :
  SFabs (SF64sub x y) = SFabs (SF64sub y x).
Proof.
  destruct x as [sx|sx| |sx mx ex], y as [sy|sy| |sy my ey]; cbn;
    try destruct sx; try destruct sy; try reflexivity;
    rewrite (Z.min_comm ey ex), binary_normalize_abs; f_equal; f_equal; lia.
Qed.

(** [abs(x - y)] and [abs(y - x)] are the same float. *)
Lemma sub_abs_sym (x y : float) : abs (x - y) = abs (y - x).
Proof.
  apply Prim2SF_inj. rewrite !abs_spec, !sub_spec. apply SFsub_abs_sym.
Qed.

Lemma finite_cases (x : float) :
  PrimFloat.is_finite x = true ->
  (exists s, Prim2SF x = S754_zero s) \/
  (exists s m e, Prim2SF x = S754_finite s m e).
Proof.
  unfold PrimFloat.is_finite, PrimFloat.is_infinity, PrimFloat.is_nan.
  rewrite !eqb_spec, abs_spec.
  change (Prim2SF infinity) with (S754_infinity false).
  destruct (Prim2SF x) as [s|s| |s m e]; cbn; try discriminate; eauto 6.
  rewrite orb_true_r. discriminate.
Qed.

Lemma not_finite_cases (x : float) :
  PrimFloat.is_finite x = false ->
  Prim2SF x = S754_nan \/ exists s, Prim2SF x = S754_infinity s.
Proof.
  unfold PrimFloat.is_finite, PrimFloat.is_infinity, PrimFloat.is_nan.
  rewrite !eqb_spec, abs_spec.
  change (Prim2SF infinity) with (S754_infinity false).
  destruct (Prim2SF x) as [s|s| |s m e]; cbn; eauto.
  - destruct s; discriminate.
  - rewrite Z.compare_refl, Pos.compare_cont_refl. destruct s; discriminate.
Qed.

(** A finite float minus itself is [+0]. *)
Lemma sub_self (x : float) : PrimFloat.is_finite x = true -> (x - x)%float = 0%float.
Proof.
  intros F. apply Prim2SF_inj. rewrite sub_spec.
  change (Prim2SF 0) with (S754_zero false).
  destruct (finite_cases x F) as [(s & ->)|(s & m & e & ->)]; cbn.
  - destruct s; reflexivity.
  - now rewrite Z.sub_diag.
Qed.

(** An infinity or a NaN minus itself is NaN. *)
Lemma sub_self_nan (x : float) :
  PrimFloat.is_finite x = false -> PrimFloat.is_nan (x - x) = true.
Proof.
  intros F. apply is_nan_iff. rewrite sub_spec.
  destruct (not_finite_cases x F) as [->|(s & ->)]; cbn; trivial.
  destruct s; reflexivity.
Qed.


(** *** A difference that is zero

    The rounding of a non-zero difference of two floats never gives
    zero (gradual underflow), so [x - y == 0] only for [x == y]. *)

Lemma digits2_pos_bounds (m : positive) :
  2 ^ (Z.pos (digits2_pos m) - 1) <= Z.pos m < 2 ^ Z.pos (digits2_pos m).
Proof.
  induction m as [m IH|m IH|]; cbn [digits2_pos]; [| |cbn; lia];
    rewrite Pos2Z.inj_succ;
    replace (Z.succ (Z.pos (digits2_pos m)) - 1)
      with (Z.succ (Z.pos (digits2_pos m) - 1)) by lia;
    rewrite !Z.pow_succ_r by lia; lia.
Qed.

Lemma shr_1_m (mrs : shr_record) :
  0 <= shr_m mrs -> shr_m (shr_1 mrs) = shr_m mrs / 2.
Proof.
  destruct mrs as [m r s]; cbn. destruct m as [|[p|p|]|p]; cbn; intros H;
    try lia; try reflexivity.
  - apply Z.div_unique with (r := 1); lia.
  - apply Z.div_unique with (r := 0); lia.
Qed.

Lemma pow2_xO (p : positive) : 2 ^ Z.pos p~0 = 2 ^ Z.pos p * 2 ^ Z.pos p.
Proof.
  replace (Z.pos p~0) with (Z.pos p + Z.pos p) by lia.
  apply Z.pow_add_r; lia.
Qed.

Lemma pow2_xI (p : positive) :
  2 ^ Z.pos p~1 = 2 * (2 ^ Z.pos p * 2 ^ Z.pos p).
Proof.
  rewrite <- pow2_xO.
  replace (Z.pos p~1) with (Z.succ (Z.pos p~0)) by lia.
  apply Z.pow_succ_r. lia.
Qed.

Lemma iter_pos_shr_m (p : positive) : forall mrs,
  0 <= shr_m mrs ->
  shr_m (iter_pos shr_1 p mrs) = shr_m mrs / 2 ^ Z.pos p.
Proof.
  induction p as [p IH|p IH|]; intros mrs H; cbn [iter_pos].
  - assert (H1 : 0 <= shr_m (shr_1 mrs))
      by (rewrite shr_1_m by trivial; apply Z.div_pos; lia).
    assert (H2 : 0 <= shr_m (iter_pos shr_1 p (shr_1 mrs)))
      by (rewrite IH by trivial; apply Z.div_pos; lia).
    rewrite IH, IH, shr_1_m by trivial.
    rewrite !Z.div_div by lia. now rewrite pow2_xI, Z.mul_assoc.
  - assert (H2 : 0 <= shr_m (iter_pos shr_1 p mrs))
      by (rewrite IH by trivial; apply Z.div_pos; lia).
    rewrite IH, IH by trivial.
    rewrite !Z.div_div by lia. now rewrite pow2_xO.
  - rewrite shr_1_m by trivial. reflexivity.
Qed.

Lemma shr_fexp_pos (m : positive) (e : Z) :
  emin <= e ->
  0 < shr_m (fst (shr_fexp prec emax (Z.pos m) e loc_Exact)) /\
  emin <= snd (shr_fexp prec emax (Z.pos m) e loc_Exact).
Proof.
  intros He. unfold shr_fexp, shr. cbn [Zdigits2 shr_record_of_loc].
  pose proof (digits2_pos_bounds m) as [Lo _].
  destruct (fexp prec emax (Z.pos (digits2_pos m) + e) - e) as [|p|p] eqn:N;
    cbn [fst snd shr_m]; try (split; lia).
  unfold fexp, SpecFloat.emin, prec, emax in *.
  rewrite iter_pos_shr_m by (cbn; lia). cbn [shr_m]. split; [|lia].
  apply Z.div_str_pos. split; [lia|].
  apply Z.le_trans with (2 := Lo). apply Z.pow_le_mono_r; lia.
Qed.

Lemma binary_round_not_zero (s z : bool) (m : positive) (e : Z) :
  emin <= e -> binary_round prec emax s m e <> S754_zero z.
Proof.
  intros He. unfold binary_round.
  destruct (shl_align m e _) as [mz ez] eqn:A.
  assert (Hz : emin <= ez).
  { unfold shl_align in A.
    destruct (fexp prec emax (Z.pos (digits2_pos m) + e) - e) eqn:D;
      inversion A; subst; trivial.
    unfold fexp. lia. }
  unfold binary_round_aux.
  pose proof (shr_fexp_pos mz ez Hz) as [P1 E1].
  destruct (shr_fexp prec emax (Z.pos mz) ez loc_Exact) as [mrs' e'].
  cbn [fst snd] in P1, E1.
  set (m1 := round_nearest_even (shr_m mrs') (loc_of_shr_record mrs')).
  assert (Q : 0 < m1).
  { subst m1. unfold round_nearest_even.
    destruct (loc_of_shr_record mrs') as [|[]]; try lia.
    destruct (Z.even (shr_m mrs')); lia. }
  destruct m1 as [|q|q]; try lia.
  pose proof (shr_fexp_pos q e' E1) as [P2 _].
  destruct (shr_fexp prec emax (Z.pos q) e' loc_Exact) as [mrs'' e''].
  cbn [fst] in P2.
  destruct (shr_m mrs''); try lia.
  destruct (Z.leb _ _); discriminate.
Qed.

Lemma iter_xO_value (m d : positive) :
  Z.pos (Pos.iter xO m d) = Z.pos m * 2 ^ Z.pos d.
Proof.
  induction d as [|d IH] using Pos.peano_ind.
  - cbn. lia.
  - rewrite Pos.iter_succ, Pos2Z.inj_xO, IH, Pos2Z.inj_succ, Z.pow_succ_r by lia.
    lia.
Qed.

Lemma shl_align_value (m : positive) (e e' : Z) :
  e' <= e ->
  Z.pos (fst (shl_align m e e')) = Z.pos m * 2 ^ (e - e').
Proof.
  intros H. unfold shl_align. destruct (e' - e) as [|d|d] eqn:D; cbn [fst].
  - replace (e - e') with 0 by lia. cbn. lia.
  - lia.
  - rewrite iter_xO_value. f_equal. f_equal. lia.
Qed.

Lemma bounded_canonical (m : positive) (e : Z) :
  bounded prec emax m e = true ->
  emin <= e /\ Z.pos (digits2_pos m) <= prec /\
  (emin < e -> Z.pos (digits2_pos m) = prec).
Proof.
  unfold bounded, canonical_mantissa, fexp, SpecFloat.emin, prec, emax.
  intros H. apply andb_prop in H as [H _]. apply Z.eqb_eq in H. lia.
Qed.

(** Two canonical floats of the same value have the same exponent and
    mantissa. *)
Lemma aligned_equal (mx my : positive) (ex ey : Z) :
  bounded prec emax mx ex = true -> bounded prec emax my ey = true ->
  Z.pos (fst (shl_align mx ex (Z.min ex ey))) =
  Z.pos (fst (shl_align my ey (Z.min ex ey))) ->
  ex = ey /\ mx = my.
Proof.
  intros Bx By. rewrite !shl_align_value by lia.
  apply bounded_canonical in Bx as (Ex & Dx & Cx), By as (Ey & Dy & Cy).
  pose proof (digits2_pos_bounds mx) as [Lx Ux].
  pose proof (digits2_pos_bounds my) as [Ly Uy].
  assert (Px : 2 ^ Z.pos (digits2_pos mx) <= 2 ^ prec)
    by (apply Z.pow_le_mono_r; lia).
  assert (Py : 2 ^ Z.pos (digits2_pos my) <= 2 ^ prec)
    by (apply Z.pow_le_mono_r; lia).
  assert (S : 2 ^ prec = 2 * 2 ^ (prec - 1)) by reflexivity.
  destruct (Z.lt_trichotomy ex ey) as [L|[E|G]].
  - rewrite Z.min_l by lia. rewrite Z.sub_diag, Z.mul_1_r. intros V.
    assert (P : 2 <= 2 ^ (ey - ex))
      by (change 2 with (2 ^ 1) at 1; apply Z.pow_le_mono_r; lia).
    rewrite Cy in Ly by lia. nia.
  - subst ey. rewrite Z.min_id, Z.sub_diag, !Z.mul_1_r. intros V.
    split; congruence.
  - rewrite Z.min_r by lia. rewrite Z.sub_diag, Z.mul_1_r. intros V.
    assert (P : 2 <= 2 ^ (ex - ey))
      by (change 2 with (2 ^ 1) at 1; apply Z.pow_le_mono_r; lia).
    rewrite Cx in Lx by lia. nia.
Qed.

Lemma SFeqb_zero (r : spec_float) :
  SFeqb r (S754_zero false) = true -> exists z, r = S754_zero z.
Proof.
  destruct r as [z|z| |z m e]; cbn; intros H; eauto; try discriminate H;
    destruct z; discriminate H.
Qed.

Lemma SFsub_finite_zero (sx sy : bool) (mx my : positive) (ex ey : Z) :
  bounded prec emax mx ex = true -> bounded prec emax my ey = true ->
  SFeqb (SF64sub (S754_finite sx mx ex) (S754_finite sy my ey))
        (S754_zero false) = true ->
  sx = sy /\ ex = ey /\ mx = my.
Proof.
  intros Vx Vy H. apply SFeqb_zero in H as (z & H).
  unfold SF64sub, SFsub in H. cbv zeta in H.
  pose proof (bounded_canonical _ _ Vx) as (Ex & _).
  pose proof (bounded_canonical _ _ Vy) as (Ey & _).
  remember (cond_Zopp sx (Z.pos (fst (shl_align mx ex (Z.min ex ey)))) -
            cond_Zopp sy (Z.pos (fst (shl_align my ey (Z.min ex ey)))))
    as d eqn:D.
  destruct d as [|p|p]; unfold binary_normalize in H.
  - assert (S : sx = sy /\
                Z.pos (fst (shl_align mx ex (Z.min ex ey))) =
                Z.pos (fst (shl_align my ey (Z.min ex ey)))).
    { destruct sx, sy; cbn [cond_Zopp] in D; split; trivial; lia. }
    destruct S as [S V]. split; [exact S|].
    exact (aligned_equal _ _ _ _ Vx Vy V).
  - now apply binary_round_not_zero in H; [|lia].
  - now apply binary_round_not_zero in H; [|lia].
Qed.

Lemma SFsub_zero (x y : spec_float) :
  valid_binary x = true -> valid_binary y = true ->
  SFeqb (SF64sub x y) (S754_zero false) = true -> SFeqb x y = true.
Proof.
  destruct x as [sx|sx| |sx mx ex], y as [sy|sy| |sy my ey]; intros Vx Vy H;
    try (apply SFsub_finite_zero in H as (-> & -> & ->); trivial;
         unfold SFeqb; cbn; rewrite Z.compare_refl, Pos.compare_cont_refl;
         destruct sy; reflexivity);
    cbn in *;
    repeat match goal with s : bool |- _ => destruct s end;
    cbn in *; try reflexivity; discriminate.
Qed.

(** [x - y == 0] only if [x == y]. *)
Lemma sub_zero_eq (x y : float) :
  (x - y =? 0)%float = true -> (x =? y)%float = true.
Proof.
  rewrite !eqb_spec, sub_spec. change (Prim2SF 0) with (S754_zero false).
  apply SFsub_zero; apply Prim2SF_valid.
Qed.

End Binary64Facts.

(** ** The generic stepping loop *)

Module GenericDriverFacts.
Import GenericDriver.

Section Loop.

Context {T : Type} {time_ops : TimeOps T}.
Context {State World RHS : Type}.
Variable usimu : MySimulationObject T State World RHS.

Lemma iteration_ok f f' :
  iteration usimu f = (f', Ok tt) ->
  exists w1 state dt w2 new_state w3,
    prestep_function usimu (world f) (current_step f) (current_t f)
                     (current_state f) = (w1, Ok (state, dt)) /\
    timestepper_function usimu w1 state (current_t f) dt (rhs_function usimu)
      = (w2, Ok new_state) /\
    poststep_function usimu w2 (current_step f + 1) (tadd (current_t f) dt)
                      new_state = (w3, Ok tt) /\
    f' = {| current_step := current_step f + 1;
            current_t := tadd (current_t f) dt;
            current_state := new_state;
            world := w3;
            calls := calls f ++
              [PrestepCall (current_step f) (current_t f) (current_state f);
               TimestepperCall state (current_t f) dt (rhs_function usimu);
               PoststepCall (current_step f + 1) (tadd (current_t f) dt)
                            new_state] |}.
Proof.
  unfold iteration, log. intros E.
  destruct (prestep_function usimu _ _ _ _) as [w1 [[state dt]|e]] eqn:P;
    [|discriminate].
  destruct (timestepper_function usimu _ _ _ _ _) as [w2 [new_state|e]] eqn:A;
    [|discriminate].
  destruct (poststep_function usimu _ _ _ _) as [w3 [[]|e]] eqn:Q;
    [|discriminate].
  exists w1, state, dt, w2, new_state, w3.
  repeat split; try assumption.
  inversion E; subst; cbn. f_equal. rewrite <- !app_assoc. reflexivity.
Qed.

(** A pass that raises is one of the three abnormal ends of the
    specification. *)
Lemma iteration_raise f f' e :
  loop_condition usimu f = true ->
  iteration usimu f = (f', Raise e) ->
  driver_loop usimu f f' (Aborted e).
Proof.
  unfold iteration, log. intros C E.
  destruct (prestep_function usimu _ _ _ _) as [w1 [[state dt]|e1]] eqn:P.
  - destruct (timestepper_function usimu _ _ _ _ _) as [w2 [new_state|e2]] eqn:A.
    + destruct (poststep_function usimu _ _ _ _) as [w3 [[]|e3]] eqn:Q;
        [discriminate|].
      inversion E; subst; cbn. rewrite <- !app_assoc.
      now apply (loop_abort_poststep usimu f w1 state dt w2 new_state w3).
    + inversion E; subst; cbn. rewrite <- !app_assoc.
      now apply (loop_abort_timestepper usimu f w1 state dt w2).
  - inversion E; subst; cbn. now apply loop_abort_prestep.
Qed.

Lemma iteration_advances f f' :
  iteration usimu f = (f', Ok tt) -> current_step f' = current_step f + 1.
Proof.
  intros E. destruct (iteration_ok _ _ E) as (?&?&?&?&?&?&_&_&_&->).
  reflexivity.
Qed.

(** Whatever the budget, a result other than [Unfinished] is a run of
    the loop as the specification describes it. *)
Lemma stepping_sound budget : forall f f' s,
  stepping usimu budget f = (f', s) -> s <> Unfinished ->
  driver_loop usimu f f' s.
Proof.
  induction budget as [|budget IH]; intros f f' s E NU; cbn in E.
  - destruct (loop_condition usimu f) eqn:C.
    + inversion E; subst. now contradiction NU.
    + inversion E; subst. now apply loop_exit.
  - destruct (loop_condition usimu f) eqn:C.
    + destruct (iteration usimu f) as [f1 [[]|e]] eqn:I.
      * destruct (iteration_ok _ _ I) as (w1&state&dt&w2&ns&w3&P&A&Q&->).
        eapply loop_pass; eauto.
      * inversion E; subst. now apply iteration_raise.
    + inversion E; subst. now apply loop_exit.
Qed.

(** The step counter bounds the number of passes: a budget of
    [step_max - current_step] is never used up. *)
Lemma stepping_finishes budget : forall f,
  step_max usimu - current_step f <= Z.of_nat budget ->
  snd (stepping usimu budget f) <> Unfinished.
Proof.
  induction budget as [|budget IH]; intros f B; cbn.
  - destruct (loop_condition usimu f) eqn:C; cbn; [|discriminate].
    unfold loop_condition in C. apply andb_prop in C as [_ C].
    apply Z.ltb_lt in C. lia.
  - destruct (loop_condition usimu f) eqn:C; cbn; [|discriminate].
    destruct (iteration usimu f) as [f1 [[]|e]] eqn:I; cbn; [|discriminate].
    apply IH. rewrite (iteration_advances _ _ I). lia.
Qed.

Lemma stepping_completed budget : forall f f',
  stepping usimu budget f = (f', Completed) -> loop_condition usimu f' = false.
Proof.
  induction budget as [|budget IH]; intros f f' E; cbn in E.
  - destruct (loop_condition usimu f) eqn:C; inversion E; subst; assumption.
  - destruct (loop_condition usimu f) eqn:C.
    + destruct (iteration usimu f) as [f1 [[]|e]]; [eauto|discriminate].
    + inversion E; subst; assumption.
Qed.

(** Leaving the loop normally with a final time that is ordered with
    the final time asked for means that the limits are met. *)
Lemma completed_limits_met f :
  loop_condition usimu f = false ->
  ordered (current_t f) (t_final usimu) = true ->
  tge (current_t f) (t_final usimu) = true \/
  step_max usimu <= current_step f.
Proof.
  unfold loop_condition, ordered. intros C O.
  destruct (tlt (current_t f) (t_final usimu)); cbn in *.
  - right. now apply Z.ltb_ge.
  - now left.
Qed.

(** A run that does not start with its limits met is a run of the loop
    of the specification; it always ends, and a normal end has the loop
    condition false. *)
Lemma main_runs_driver_loop (w : World) :
  limits_met usimu (current_step (entry usimu w))
                   (current_t (entry usimu w)) = false ->
  exists f s,
    main usimu w = conclude usimu (f, s) /\
    s <> Unfinished /\
    driver_loop usimu (entry usimu w) f s /\
    (s = Completed -> loop_condition usimu f = false).
Proof.
  intros L. unfold main. rewrite L.
  set (budget := Z.to_nat (step_max usimu - current_step (entry usimu w))).
  destruct (stepping usimu budget (entry usimu w)) as [f s] eqn:E.
  assert (NU : s <> Unfinished).
  { pose proof (stepping_finishes budget (entry usimu w)) as F.
    rewrite E in F. apply F. subst budget. lia. }
  exists f, s. repeat split; trivial.
  - now apply (stepping_sound budget).
  - intros ->. now apply (stepping_completed budget (entry usimu w)).
Qed.

(** With the limits met on entry, [main] raises before anything else
    happens. *)
Lemma main_limits_met (w : World) :
  limits_met usimu (current_step (entry usimu w))
                   (current_t (entry usimu w)) = true ->
  main usimu w =
    (entry usimu w,
     Aborted (ValueError "Nothing to do, loop limits already met.")).
Proof. intros L. unfold main. now rewrite L. Qed.

End Loop.

End GenericDriverFacts.

Module DriverLoopClaims.
Import GenericDriver GenericDriverFacts.

(** Exact rational times are always ordered. *)
Lemma ordered_exact (a b : Q) : ordered a b = true.
Proof. cbn. apply orb_negb_l. Qed.

(** Two floats are ordered unless one of them is NaN. *)
Lemma ordered_binary64 (a b : float) :
  ordered a b = negb (PrimFloat.is_nan a || PrimFloat.is_nan b).
Proof.
  unfold ordered. cbn.
  destruct (PrimFloat.is_nan a) eqn:Na.
  - now destruct (Binary64Facts.compare_nan a b Na) as (-> & _ & _ & _ & -> & _).
  - destruct (PrimFloat.is_nan b) eqn:Nb.
    + now destruct (Binary64Facts.compare_nan b a Nb)
        as (_ & -> & _ & -> & _).
    + destruct (Binary64Facts.compare_floats a b Na Nb) as [_ -> _ _ _ _ _
        |_ -> _ _ _ -> _|_ -> _ _ _ -> _]; reflexivity.
Qed.

Section Claims.

Context {T : Type} {time_ops : TimeOps T}.
Context {State World RHS : Type}.
Variable usimu : MySimulationObject T State World RHS.

(** C2.  When the current time is already [>=] the final time, or the
    current step already [>=] the step limit, [main] raises its
    [ValueError] at once: the frame is the one it entered with, no
    pass is made and no callback has been called. *)
Theorem limits_already_met (w : World) :
  tge (snd (get_current_step_time usimu)) (t_final usimu) = true \/
  fst (get_current_step_time usimu) >= step_max usimu ->
  exists f,
    main usimu w =
      (f, Aborted (ValueError "Nothing to do, loop limits already met.")) /\
    calls f = [] /\ passes f = 0%nat /\ world f = w /\
    current_state f = initial_state usimu.
Proof.
  intros H. exists (entry usimu w). rewrite main_limits_met.
  - repeat split.
  - unfold limits_met; cbn. destruct H as [H|H].
    + now rewrite H.
    + apply orb_true_iff. right. rewrite Z.geb_leb. apply Z.leb_le. lia.
Qed.

End Claims.

(** C1, as stated, fails on Python floats.  A run started at time NaN
    does not have its limits met on entry, makes no pass and ends
    normally; a run whose pre-step returns NaN as step size ends
    normally after one pass; and in both the final step and time
    satisfy neither [time >= final_time] nor [step >= max_steps]. *)
Lemma nan_run_ends_with_limits_unmet :
  (let usimu := fixed_step 0 nan 10 1%float 0.001%float in
   let f := fst (main usimu tt) in
   limits_met usimu (current_step (entry usimu tt))
                    (current_t (entry usimu tt)) = false /\
   snd (main usimu tt) = Completed /\ passes f = 0%nat /\
   limits_met usimu (current_step f) (current_t f) = false) /\
  (let usimu := fixed_step 0 0%float 10 1%float nan in
   let f := fst (main usimu tt) in
   limits_met usimu (current_step (entry usimu tt))
                    (current_t (entry usimu tt)) = false /\
   snd (main usimu tt) = Completed /\ passes f = 1%nat /\
   limits_met usimu (current_step f) (current_t f) = false).
Proof. repeat split. Qed.

(** C1, amended.  Whatever numbers the times are: a run that does not
    start with its limits met goes through the loop exactly as the
    specification describes it ([driver_loop]: a pass is made iff
    [time < final_time AND step < max_steps], and a pass calls pre-step
    with the current step, time and state, then the Timestepper with the
    state and step size pre-step returned, the current time and the RHS,
    then advances time by the step size and the step by one, then calls
    post-step with the new step, time and state); the loop always ends,
    and when it ends normally the loop condition is false, so that the
    final step and time satisfy [time >= final_time OR step >= max_steps]
    provided the final time is ordered with [final_time].  Exact times
    are always ordered; Python floats are ordered unless one of them is
    NaN. *)
Theorem driver_loop_contract :
  (forall (T : Type) (time_ops : TimeOps T) (State World RHS : Type)
          (usimu : MySimulationObject T State World RHS) (w : World),
      limits_met usimu (current_step (entry usimu w))
                       (current_t (entry usimu w)) = false ->
      exists f s,
        main usimu w = conclude usimu (f, s) /\
        s <> Unfinished /\
        driver_loop usimu (entry usimu w) f s /\
        (s = Completed ->
         loop_condition usimu f = false /\
         (ordered (current_t f) (t_final usimu) = true ->
          tge (current_t f) (t_final usimu) = true \/
          step_max usimu <= current_step f))) /\
  (forall a b : Q, ordered a b = true) /\
  (forall a b : float,
      ordered a b = negb (PrimFloat.is_nan a || PrimFloat.is_nan b)).
Proof.
  repeat apply conj; [|exact ordered_exact|exact ordered_binary64].
  intros T time_ops State World RHS usimu w L.
  destruct (main_runs_driver_loop usimu w L) as (f & s & M & NU & D & Fin).
  exists f, s. repeat apply conj; trivial.
  intros C. specialize (Fin C). split; [exact Fin|].
  now apply completed_limits_met.
Qed.

Lemma driver_loop_contract_witness :
  let usimu := fixed_step 0 0%float 3 1%float 0.5%float in
  exists f s,
    main usimu tt = conclude usimu (f, s) /\
    s <> Unfinished /\
    driver_loop usimu (entry usimu tt) f s /\
    (s = Completed ->
     loop_condition usimu f = false /\
     (ordered (current_t f) (t_final usimu) = true ->
      tge (current_t f) (t_final usimu) = true \/
      step_max usimu <= current_step f)).
Proof.
  apply (proj1 driver_loop_contract float _ unit unit unit
           (fixed_step 0 0%float 3 1%float 0.5%float) tt).
  reflexivity.
Defined.

Lemma limits_already_met_witness :
  let usimu := fixed_step 7 (2 : Q) 10 1%Q (1 # 2)%Q in
  exists f,
    main usimu tt =
      (f, Aborted (ValueError "Nothing to do, loop limits already met.")) /\
    calls f = [] /\ passes f = 0%nat /\ world f = tt /\
    current_state f = initial_state usimu.
Proof.
  apply (limits_already_met (fixed_step 7 (2 : Q) 10 1%Q (1 # 2)%Q) tt).
  left. reflexivity.
Defined.

End DriverLoopClaims.

(** ** Runs with a fixed step size *)

Module FixedStepFacts.
Import GenericDriver GenericDriverFacts.

Section Exact.

Context {State World RHS : Type}.
Variable usimu : MySimulationObject Q State World RHS.
Variable dt : Q.

(** Pre-step always answers with the step size [dt]. *)
Hypothesis fixed_dt : forall w step t state w' state' dt',
  prestep_function usimu w step t state = (w', Ok (state', dt')) -> dt' = dt.

Lemma stepping_fixed_dt budget : forall f f',
  stepping usimu budget f = (f', Completed) ->
  exists k : nat,
    passes f' = (passes f + k)%nat /\
    timestepper_calls f' = (timestepper_calls f + k)%nat /\
    current_step f' = current_step f + Z.of_nat k /\
    (current_t f' == current_t f + inject_Z (Z.of_nat k) * dt)%Q.
Proof.
  induction budget as [|budget IH]; intros f f' E; cbn in E.
  - destruct (loop_condition usimu f); inversion E; subst.
    exists 0%nat. repeat split; try lia. cbn. ring.
  - destruct (loop_condition usimu f).
    + destruct (iteration usimu f) as [f1 [[]|e]] eqn:I; [|discriminate].
      destruct (iteration_ok _ _ _ I) as (w1&state&dt'&w2&ns&w3&P&A&Q&->).
      apply fixed_dt in P. subst dt'.
      destruct (IH _ _ E) as (k & Hp & Ht & Hs & Hq).
      exists (S k). cbn [current_step current_t] in *.
      unfold passes, timestepper_calls in *. cbn [calls] in *.
      rewrite filter_app, length_app in Hp, Ht. cbn in Hp, Ht.
      repeat split; try lia.
      rewrite Hq, Nat2Z.inj_succ. unfold Z.succ. rewrite inject_Z_plus.
      cbn. ring.
    + inversion E; subst. exists 0%nat. repeat split; try lia. cbn. ring.
Qed.

Lemma main_fixed_dt w f :
  main usimu w = (f, Completed) ->
  timestepper_calls f = passes f /\
  current_step f = fst (get_current_step_time usimu) + Z.of_nat (passes f) /\
  (current_t f == snd (get_current_step_time usimu)
                  + inject_Z (Z.of_nat (passes f)) * dt)%Q.
Proof.
  unfold main. destruct (limits_met usimu _ _); [discriminate|].
  destruct (stepping usimu _ (entry usimu w)) as [f1 s] eqn:E.
  destruct s; cbn; try discriminate.
  destruct (finalize_simuation usimu (world f1)) as [w' [[]|e]];
    [|discriminate].
  intros F. inversion F; subst; clear F.
  destruct (stepping_fixed_dt _ _ _ E) as (k & Hp & Ht & Hs & Hq).
  unfold passes, timestepper_calls, log in *. cbn in *.
  rewrite !filter_app, !length_app. cbn.
  rewrite Hp, Ht, Hs, Hq, !Nat.add_0_r. repeat split; reflexivity.
Qed.

End Exact.

End FixedStepFacts.

Module FixedStepRun.
Import GenericDriver GenericDriverFacts.

Section AnyTime.

Context {T : Type} {time_ops : TimeOps T}.
Variables (step0 : Z) (t0 : T) (limit : Z) (t_end dt : T).

Let usimu := fixed_step step0 t0 limit t_end dt.

(** If the first [n] partial sums stay below the final time and the
    step limit leaves room for [n] passes, and after [n] passes one of
    the two limits is met, the loop makes exactly [n] passes. *)
Lemma fixed_step_stepping (n : nat) : forall (budget : nat) f,
  (n <= budget)%nat ->
  (forall i, (i < n)%nat -> tlt (advance i (current_t f) dt) t_end = true) ->
  current_step f + Z.of_nat n <= limit ->
  tlt (advance n (current_t f) dt) t_end = false \/
    current_step f + Z.of_nat n = limit ->
  exists f',
    stepping usimu budget f = (f', Completed) /\
    passes f' = (passes f + n)%nat /\
    timestepper_calls f' = (timestepper_calls f + n)%nat /\
    current_step f' = current_step f + Z.of_nat n /\
    current_t f' = advance n (current_t f) dt.
Proof.
  induction n as [|n IH]; intros budget f B Below Room Stop.
  - assert (C : loop_condition usimu f = false).
    { unfold loop_condition. cbn in *. destruct Stop as [S|S].
      - now rewrite S.
      - apply andb_false_iff. right. apply Z.ltb_ge.
        unfold step_max; cbn. lia. }
    exists f. repeat split; try lia.
    destruct budget; cbn; now rewrite C.
  - destruct budget as [|budget]; [lia|].
    assert (C : loop_condition usimu f = true).
    { pose proof (Below 0%nat ltac:(lia)) as B0. cbn in B0.
      unfold loop_condition, t_final, step_max, usimu; cbn.
      rewrite B0. cbn. apply Z.ltb_lt. lia. }
    cbn [stepping]. rewrite C. cbn [iteration usimu fixed_step
      prestep_function timestepper_function poststep_function
      rhs_function log current_step current_t current_state world calls].
    set (f1 := {| current_step := current_step f + 1 |}).
    destruct (IH budget f1) as (f' & E & Hp & Ht & Hs & Hq).
    + lia.
    + intros i Hi. apply (Below (S i)). lia.
    + subst f1; cbn. lia.
    + subst f1; cbn. destruct Stop as [S|S]; [left; exact S|right; lia].
    + exists f'. split; [exact E|].
      unfold passes, timestepper_calls in *. subst f1. cbn in Hp, Ht, Hs, Hq.
      rewrite !filter_app, !length_app in Hp, Ht. cbn in Hp, Ht.
      repeat split; try lia. exact Hq.
Qed.

Lemma fixed_step_main (n : nat) :
  tge t0 t_end = false -> step0 < limit ->
  (forall i, (i < n)%nat -> tlt (advance i t0 dt) t_end = true) ->
  step0 + Z.of_nat n <= limit ->
  tlt (advance n t0 dt) t_end = false \/ step0 + Z.of_nat n = limit ->
  exists f,
    main usimu tt = (f, Completed) /\
    passes f = n /\ timestepper_calls f = n /\
    current_step f = step0 + Z.of_nat n /\
    current_t f = advance n t0 dt.
Proof.
  intros G L Below Room Stop. unfold main.
  assert (M : limits_met usimu (current_step (entry usimu tt))
                         (current_t (entry usimu tt)) = false).
  { unfold limits_met; cbn. rewrite G. cbn. rewrite Z.geb_leb.
    apply Z.leb_gt. unfold step_max; cbn. lia. }
  rewrite M.
  destruct (fixed_step_stepping n
              (Z.to_nat (step_max usimu - current_step (entry usimu tt)))
              (entry usimu tt)) as (f' & E & Hp & Ht & Hs & Hq);
    try assumption.
  { unfold step_max; cbn. lia. }
  rewrite E. cbn. eexists. split; [reflexivity|].
  unfold passes, timestepper_calls in *. cbn in *.
  rewrite !filter_app, !length_app. cbn. repeat split; try lia; assumption.
Qed.

End AnyTime.

End FixedStepRun.

Module FixedStepClaims.
Import GenericDriver GenericDriverFacts FixedStepFacts FixedStepRun.

Lemma below_by_computation {T : Type} {time_ops : TimeOps T} (n : nat)
    (t0 dt t_end : T) :
  forallb (fun i => tlt (advance i t0 dt) t_end) (seq 0 n) = true ->
  forall i, (i < n)%nat -> tlt (advance i t0 dt) t_end = true.
Proof.
  intros F i Hi. rewrite forallb_forall in F. apply F, in_seq. lia.
Qed.

(** The example scenario on binary64, for any step limit that allows
    1000 passes. *)
Lemma example_scenario_run (limit : Z) :
  1000 <= limit ->
  exists f,
    main (example_scenario limit) tt = (f, Completed) /\
    passes f = 1000%nat /\ timestepper_calls f = 1000%nat /\
    current_step f = 1000 /\
    current_t f = 1.0000000000000007%float.
Proof.
  intros L.
  assert (Below : forall i, (i < 1000)%nat ->
            tlt (advance i 0%float 0.001%float) 1%float = true).
  { apply below_by_computation. vm_compute. reflexivity. }
  assert (Stop : tlt (advance 1000 0%float 0.001%float) 1%float = false \/
                 0 + Z.of_nat 1000 = limit).
  { left. vm_compute. reflexivity. }
  assert (Start : tge 0%float 1%float = false).
  { vm_compute. reflexivity. }
  destruct (fixed_step_main 0 0%float limit 1%float 0.001%float 1000
              Start ltac:(lia) Below ltac:(lia) Stop)
    as (f & E & Hp & Ht & Hs & Hq).
  exists f. repeat split; assumption.
Qed.

(** C6, as stated, fails on Python floats: in the example scenario the
    loop does make 1000 passes and ends at step 1000, but the time it
    has summed up is further than [1e-16] from [1.0]. *)
Lemma example_scenario_exceeds_1e16 :
  exists f,
    main (example_scenario 1000) tt = (f, Completed) /\
    passes f = 1000%nat /\ current_step f = 1000 /\
    float_within 1e-16 (current_t f) 1 = false.
Proof.
  destruct (example_scenario_run 1000) as (f & E & Hp & _ & Hs & Hq); [lia|].
  exists f. repeat split; try assumption.
  rewrite Hq. vm_compute. reflexivity.
Qed.

(** C6, amended.  With a fixed step size [dt], a run whose loop completes
    after [n] passes has invoked the Timestepper exactly [n] times, ends
    at the initial step plus [n], and in exact arithmetic at the initial
    time plus [n * dt].  On Python floats, with initial time 0, final
    time 1.0, [dt = 0.001] and a step limit of at least 1000, the loop
    makes exactly 1000 passes, the final step is 1000 and the final time
    is 1.0000000000000007, within [1e-15] of 1.0. *)
Theorem fixed_step_final_time :
  (forall (State World RHS : Type)
          (usimu : MySimulationObject Q State World RHS) (dt : Q)
          (w : World) (f : frame Q State World RHS) (n : nat),
      (forall w step t state w' state' dt',
          prestep_function usimu w step t state = (w', Ok (state', dt')) ->
          dt' = dt) ->
      main usimu w = (f, Completed) ->
      passes f = n ->
      timestepper_calls f = n /\
      current_step f = fst (get_current_step_time usimu) + Z.of_nat n /\
      (current_t f == snd (get_current_step_time usimu)
                      + inject_Z (Z.of_nat n) * dt)%Q) /\
  (forall limit : Z,
      1000 <= limit ->
      exists f,
        main (example_scenario limit) tt = (f, Completed) /\
        passes f = 1000%nat /\ timestepper_calls f = 1000%nat /\
        current_step f = 1000 /\
        current_t f = 1.0000000000000007%float /\
        float_within 1e-15 (current_t f) 1 = true).
Proof.
  split.
  - intros State World RHS usimu dt w f n Fixed M <-.
    exact (main_fixed_dt usimu dt Fixed w f M).
  - intros limit L.
    destruct (example_scenario_run limit L) as (f & E & Hp & Ht & Hs & Hq).
    exists f. repeat split; try assumption.
    rewrite Hq. vm_compute. reflexivity.
Qed.

Lemma fixed_step_final_time_witness :
  (let usimu := fixed_step 0 (0 : Q) 5 (3 # 2)%Q (1 # 2)%Q in
   let f := fst (main usimu tt) in
   timestepper_calls f = 3%nat /\
   current_step f = 0 + Z.of_nat 3 /\
   (current_t f == 0 + inject_Z (Z.of_nat 3) * (1 # 2))%Q) /\
  (exists f,
      main (example_scenario 2000) tt = (f, Completed) /\
      passes f = 1000%nat /\ timestepper_calls f = 1000%nat /\
      current_step f = 1000 /\
      current_t f = 1.0000000000000007%float /\
      float_within 1e-15 (current_t f) 1 = true).
Proof.
  split.
  - apply (proj1 fixed_step_final_time unit unit unit
             (fixed_step 0 (0 : Q) 5 (3 # 2)%Q (1 # 2)%Q) (1 # 2)%Q tt).
    + intros w step t state w' state' dt' E. now inversion E.
    + reflexivity.
    + reflexivity.
  - apply (proj2 fixed_step_final_time 2000). lia.
Defined.

End FixedStepClaims.

(** ** The step policy *)

Module StepPolicyClaims.
Import Simutil.

Lemma check_step_positive (step interval : Z) :
  0 < interval ->
  (check_step step interval = true <-> step mod interval = 0).
Proof.
  intros P. unfold check_step.
  destruct (interval <=? 0) eqn:E; [apply Z.leb_le in E; lia|].
  apply Z.eqb_eq.
Qed.

Lemma check_step_nonpositive (step interval : Z) :
  interval <= 0 -> check_step step interval = false.
Proof.
  intros N. unfold check_step.
  destruct (interval <=? 0) eqn:E; [reflexivity|apply Z.leb_gt in E; lia].
Qed.

(** C3, as stated, contradicts itself on a negative interval that
    divides the step: [4 modulo -2 == 0], yet the policy is never due. *)
Lemma check_step_not_modulo_for_every_interval :
  ~ (forall step interval : Z,
        0 <= step ->
        (check_step step interval = true <-> step mod interval = 0)).
Proof.
  intros H. destruct (H 4 (-2) ltac:(lia)) as [_ H2].
  specialize (H2 eq_refl). discriminate H2.
Qed.

(** C3, amended.  For a non-negative step and a positive interval [k]
    the policy is due iff [step modulo k == 0], that is exactly on the
    steps [0, k, 2k, ...]; for a zero or negative interval it is never
    due.  The policy is a total function: no input makes it fault. *)
Theorem check_step_policy (step interval : Z) :
  0 <= step ->
  (0 < interval ->
     (check_step step interval = true <-> step mod interval = 0) /\
     (check_step step interval = true <->
        exists n, 0 <= n /\ step = n * interval)) /\
  (interval <= 0 -> check_step step interval = false).
Proof.
  intros S. split.
  - intros P. split; [now apply check_step_positive|].
    rewrite (check_step_positive _ _ P). split.
    + intros M. exists (step / interval). split.
      * apply Z.div_pos; lia.
      * pose proof (Z.div_mod step interval ltac:(lia)). lia.
    + intros (n & _ & ->). apply Z.mod_mul. lia.
  - apply check_step_nonpositive.
Qed.

Lemma check_step_policy_witness :
  (0 < 3 ->
     (check_step 6 3 = true <-> 6 mod 3 = 0) /\
     (check_step 6 3 = true <-> exists n, 0 <= n /\ 6 = n * 3)) /\
  (3 <= 0 -> check_step 6 3 = false).
Proof.
  apply (check_step_policy 6 3). lia.
Defined.

End StepPolicyClaims.

(** ** The pre-step callback of scalar-lump-mpi *)

Module PreStepFacts.
Import ScalarLump.

Lemma count_app {A} (p : A -> bool) (l l' : list A) :
  count p (l ++ l') = (count p l + count p l')%nat.
Proof. unfold count. now rewrite filter_app, length_app. Qed.

Lemma count_nil {A} (p : A -> bool) : count p [] = 0%nat.
Proof. reflexivity. Qed.

Lemma count_cons {A} (p : A -> bool) (x : A) (l : list A) :
  count p (x :: l) = (b2n (p x) + count p l)%nat.
Proof. unfold count; cbn. now destruct (p x). Qed.

(** One worker's reduction result is the disjunction of all flags. *)
Lemma allreduce_LOR_spec (l : list bool) (b : bool) :
  allreduce_LOR l b = b || existsb id l.
Proof.
  unfold allreduce_LOR. revert b.
  induction l as [|x l IH]; intros b; cbn.
  - now rewrite orb_false_r.
  - rewrite IH. unfold id at 2. now rewrite orb_assoc.
Qed.

Lemma existsb_others (i : nat) : forall (l : list bool) (h : bool),
  nth_error l i = Some h ->
  h || existsb id (others i l) = existsb id l.
Proof.
  unfold others. induction i as [|i IH]; intros [|x l] h E; cbn in *;
    try discriminate.
  - now inversion E.
  - rewrite <- (IH l h E). unfold id at 1 3.
    destruct h, x; reflexivity.
Qed.

Lemma allreduce_all_workers (i : nat) (l : list bool) (h : bool) :
  nth_error l i = Some h ->
  allreduce_LOR (others i l) h = existsb id l.
Proof.
  intros E. rewrite allreduce_LOR_spec. now apply existsb_others.
Qed.

Section PreStep.

Context {State DV : Type}.
Variable dependent_vars : State -> DV.
Variable initializer : Q -> State.
Variable state_sub : State -> State -> State.
Variable check_naninf_local : DV -> bool.
Variable check_range_local : DV -> float -> float -> bool.
Variable compare_fluid_solutions : State -> State -> float * list float.
Variable check_step : Z -> Z -> bool.
Variable cfg : settings.

Abbreviation health_check :=
  (my_health_check check_naninf_local check_range_local
     compare_fluid_solutions cfg).
Abbreviation verdict :=
  (health_verdict dependent_vars initializer check_naninf_local
     check_range_local compare_fluid_solutions cfg).
Abbreviation pre_step :=
  (my_pre_step dependent_vars initializer state_sub check_naninf_local
     check_range_local compare_fluid_solutions check_step cfg).

(** The health check always returns, and only logs. *)
Lemma health_check_shape (state : State) (dv : DV) (exact : State) :
  exists tr h,
    health_check state dv exact = (tr, Ok h) /\
    forallb is_health_log tr = true.
Proof.
  unfold my_health_check.
  destruct (check_naninf_local dv || check_range_local dv 0.9%float 1.1%float);
    destruct (exittol <? py_max (compare_fluid_solutions state exact))%float;
    destruct (rank cfg =? 0); cbn; eauto.
Qed.

Lemma count_health_log (p : @event State DV -> bool) (tr : list event) :
  (forall e, is_health_log e = true -> p e = false) ->
  forallb is_health_log tr = true -> count p tr = 0%nat.
Proof.
  intros Hp. induction tr as [|e tr IH]; cbn [forallb]; [reflexivity|].
  intros F. apply andb_prop in F as [He Htr].
  rewrite count_cons, (Hp e He), (IH Htr). reflexivity.
Qed.

Abbreviation has_failed :=
  (failed dependent_vars initializer check_naninf_local check_range_local
     compare_fluid_solutions check_step cfg).
Abbreviation is_periodic := (periodic check_step cfg).

Lemma health_log_not_viz (step : Z) (e : @event State DV) :
  is_health_log e = true -> is_viz_write step e = false.
Proof. destruct e; try discriminate; reflexivity. Qed.

Lemma health_log_not_restart (step : Z) (e : @event State DV) :
  is_health_log e = true -> is_restart_write step e = false.
Proof. destruct e; try discriminate; reflexivity. Qed.

Lemma health_log_not_check (e : @event State DV) :
  is_health_log e = true -> is_health_check e = false.
Proof. destruct e; try discriminate; reflexivity. Qed.

Lemma health_log_not_status (e : @event State DV) :
  is_health_log e = true -> is_status e = false.
Proof. destruct e; try discriminate; reflexivity. Qed.

Lemma health_log_not_status_log (e : @event State DV) :
  is_health_log e = true -> is_status_log e = false.
Proof.
  destruct e as [| | | |m| | | | | | |]; try discriminate.
  destruct m; try discriminate; reflexivity.
Qed.

Ltac tally htr Hlog :=
  repeat first [rewrite count_app | rewrite count_cons | rewrite count_nil];
  rewrite ?(count_health_log _ htr (health_log_not_viz _) Hlog),
          ?(count_health_log _ htr (health_log_not_restart _) Hlog),
          ?(count_health_log _ htr health_log_not_check Hlog),
          ?(count_health_log _ htr health_log_not_status Hlog),
          ?(count_health_log _ htr health_log_not_status_log Hlog);
  cbn; rewrite ?Z.eqb_refl; try reflexivity.

(** What one call of [my_pre_step] does, in numbers: how it ends, and how
    often it writes a visualization file or a restart file for the step,
    enters the health check, and computes and logs the status. *)
Lemma pre_step_summary (comm : bool -> bool) (step : Z) (t dt : Q)
    (state : State) :
  let pre := pre_step comm step t dt state in
  snd pre =
    (if has_failed comm step t state
     then Raise (RuntimeError "Error detected at prestep, exiting.")
     else Ok (state, dt)) /\
  count (is_viz_write step) (fst pre) =
    b2n (has_failed comm step t state || is_periodic step (nviz cfg)) /\
  count (is_restart_write step) (fst pre) =
    b2n (has_failed comm step t state || is_periodic step (nrestart cfg)) /\
  count is_health_check (fst pre) = b2n (check_step step (nhealth cfg)) /\
  count is_status (fst pre) = b2n (check_step step (nstatus cfg)) /\
  count is_status_log (fst pre) =
    b2n (check_step step (nstatus cfg) && (rank cfg =? 0)) /\
  (check_step step (nhealth cfg) = true ->
   In (Allreduce (verdict state t) (comm (verdict state t))) (fst pre)).
Proof.
  unfold failed, periodic, health_verdict, my_pre_step, my_graceful_exit,
    my_write_viz, my_write_restart.
  destruct (health_check_shape state (dependent_vars state) (initializer t))
    as (htr & h & H & Hlog).
  rewrite H. cbn [snd].
  destruct (logmgr cfg), (check_step step (nhealth cfg)),
    (check_step step (nviz cfg)), (check_step step (nrestart cfg)),
    (check_step step (nstatus cfg)), (at_restart cfg step),
    (rank cfg =? 0);
    cbn -[count]; try destruct (comm h); cbn -[count];
    repeat split; try (tally htr Hlog); try discriminate;
    try (intros _; rewrite ?in_app_iff; cbn; tauto).
Qed.

(** What the tail of [main] does with the result of [advance_state]:
    it ends in the finish error iff the time is off by more than
    [finish_tol], and either way writes one visualization file and one
    restart file for the final step. *)
Lemma finish_summary (step : Z) (t : Q) (state : State) :
  let fin := main_after_advance dependent_vars initializer state_sub cfg
               step t state in
  snd fin =
    (if Qle_bool (Qabs (t - t_final cfg)) finish_tol
     then Ok tt
     else Raise (RuntimeError "Simulation timestepping did not complete.")) /\
  count (is_viz_write step) (fst fin) = 1%nat /\
  count (is_restart_write step) (fst fin) = 1%nat.
Proof.
  unfold main_after_advance, my_graceful_exit, my_write_viz, my_write_restart.
  destruct (Qle_bool (Qabs (t - t_final cfg)) finish_tol), (rank cfg =? 0),
    (logmgr cfg), (use_profiling cfg);
    cbn -[count]; repeat split;
    repeat first [rewrite count_app | rewrite count_cons | rewrite count_nil];
    cbn; rewrite ?Z.eqb_refl; reflexivity.
Qed.

End PreStep.

End PreStepFacts.

Module PreStepClaims.
Import ScalarLump PreStepFacts.

Section Claims.

Context {State DV : Type}.
Variable dependent_vars : State -> DV.
Variable initializer : Q -> State.
Variable state_sub : State -> State -> State.
Variable check_naninf_local : DV -> bool.
Variable check_range_local : DV -> float -> float -> bool.
Variable compare_fluid_solutions : State -> State -> float * list float.
Variable check_step : Z -> Z -> bool.

Abbreviation verdict :=
  (health_verdict dependent_vars initializer check_naninf_local
     check_range_local compare_fluid_solutions).
Abbreviation pre_step :=
  (my_pre_step dependent_vars initializer state_sub check_naninf_local
     check_range_local compare_fluid_solutions check_step).
Abbreviation has_failed :=
  (failed dependent_vars initializer check_naninf_local check_range_local
     compare_fluid_solutions check_step).

(** C4, amended.  In a run resumed from a restart at step [s], a
    pre-step in which the reduced health check reports no error writes no
    visualization file and no restart file on step [s], whatever the
    intervals, and on every other step writes each of them exactly when
    its interval is due.  A pre-step in which the reduced health check
    reports an error writes both once before it aborts, on step [s] as
    on any other. *)
Theorem restart_step_suppression (cfg : settings) (comm : bool -> bool)
    (s step : Z) (t dt : Q) (state : State) :
  rst_step cfg = Some s ->
  let tr := fst (pre_step cfg comm step t dt state) in
  (has_failed cfg comm step t state = false -> step = s ->
     count (is_viz_write step) tr = 0%nat /\
     count (is_restart_write step) tr = 0%nat) /\
  (has_failed cfg comm step t state = false -> step <> s ->
     count (is_viz_write step) tr = b2n (check_step step (nviz cfg)) /\
     count (is_restart_write step) tr = b2n (check_step step (nrestart cfg))) /\
  (has_failed cfg comm step t state = true ->
     count (is_viz_write step) tr = 1%nat /\
     count (is_restart_write step) tr = 1%nat).
Proof.
  intros R tr.
  destruct (pre_step_summary dependent_vars initializer state_sub
              check_naninf_local check_range_local compare_fluid_solutions
              check_step cfg comm step t dt state)
    as (_ & Hv & Hr & _).
  fold tr in Hv, Hr. unfold periodic, at_restart in Hv, Hr. rewrite R in Hv, Hr.
  split; [|split].
  - intros F ->. rewrite F, Z.eqb_refl in Hv, Hr. now split.
  - intros F E. apply Z.eqb_neq in E. rewrite F, E in Hv, Hr. now split.
  - intros F. rewrite F in Hv, Hr. now split.
Qed.


(** C5.  On a step at which the health check is due, if the local
    verdict is true on at least one worker, then every worker gets a
    true result from the logical-OR reduction, writes one visualization
    file and one restart file for that step, and ends its pre-step in
    the fatal error; the writes are in the trace it leaves behind when
    it raises. *)
Theorem health_failure_reaches_all_workers (cfg : settings)
    (workers : list (Z * State)) (step : Z) (t dt : Q) :
  check_step step (nhealth cfg) = true ->
  (exists w, In w workers /\
     local_flag dependent_vars initializer check_naninf_local
       check_range_local compare_fluid_solutions cfg t w = true) ->
  forall (i : nat) (w : Z * State),
    nth_error workers i = Some w ->
    let pre :=
      worker_pre_step dependent_vars initializer state_sub check_naninf_local
        check_range_local compare_fluid_solutions check_step cfg
        workers i w step t dt in
    In (Allreduce
          (local_flag dependent_vars initializer check_naninf_local
             check_range_local compare_fluid_solutions cfg t w) true)
       (fst pre) /\
    count (is_viz_write step) (fst pre) = 1%nat /\
    count (is_restart_write step) (fst pre) = 1%nat /\
    snd pre = Raise (RuntimeError "Error detected at prestep, exiting.").
Proof.
  intros D (w' & Hin & Hw') i w Hi pre.
  set (flags := map (local_flag dependent_vars initializer check_naninf_local
                       check_range_local compare_fluid_solutions cfg t)
                    workers).
  assert (All : allreduce_LOR (others i flags)
                  (verdict (with_rank cfg (fst w)) (snd w) t) = true).
  { rewrite (allreduce_all_workers i flags).
    - apply existsb_exists. exists true. split; [|reflexivity].
      rewrite <- Hw'. now apply in_map.
    - subst flags. now rewrite nth_error_map, Hi. }
  destruct (pre_step_summary dependent_vars initializer state_sub
              check_naninf_local check_range_local compare_fluid_solutions
              check_step (with_rank cfg (fst w))
              (allreduce_LOR (others i flags)) step t dt (snd w))
    as (Hr & Hv & Hrs & _ & _ & _ & Ha).
  unfold failed in Hr, Hv, Hrs. cbn [nhealth with_rank] in Hr, Hv, Hrs, Ha.
  rewrite D, All in Hr, Hv, Hrs. rewrite All in Ha.
  repeat split; try assumption. now apply Ha.
Qed.

End Claims.

End PreStepClaims.

Module PreStepExamples.
Import ScalarLump PreStepFacts PreStepClaims.

(** C4, as stated, fails when the health check fails: resumed from step
    5, the pre-step of step 5 writes a visualization file and a restart
    file for step 5 on its way out; and on step 1, where the restart
    interval 5 is not due, a failing pre-step writes a restart file all
    the same. *)
Lemma restart_step_written_on_health_failure :
  rst_step (source_settings 0 (Some 5)) = Some 5 /\
  count (is_viz_write 5)
    (fst (sample_pre_step (source_settings 0 (Some 5)) (allreduce_LOR []) 5 true))
    = 1%nat /\
  count (is_restart_write 5)
    (fst (sample_pre_step (source_settings 0 (Some 5)) (allreduce_LOR []) 5 true))
    = 1%nat /\
  Simutil.check_step 1 (nrestart (source_settings 0 (Some 5))) = false /\
  count (is_restart_write 1)
    (fst (sample_pre_step (source_settings 0 (Some 5)) (allreduce_LOR []) 1 true))
    = 1%nat.
Proof. repeat split. Qed.

Lemma restart_step_suppression_witness :
  let tr :=
    fst (sample_pre_step (source_settings 0 (Some 5)) (allreduce_LOR []) 5 false) in
  Simutil.check_step 5 (nviz (source_settings 0 (Some 5))) = true /\
  Simutil.check_step 5 (nrestart (source_settings 0 (Some 5))) = true /\
  count (is_viz_write 5) tr = 0%nat /\ count (is_restart_write 5) tr = 0%nat.
Proof.
  split; [reflexivity|]. split; [reflexivity|].
  apply (proj1 (restart_step_suppression (fun s => s) (fun _ => false) xorb
                  (fun dv => dv) (fun _ _ _ => false) (fun _ _ => (0%float, []))
                  Simutil.check_step (source_settings 0 (Some 5))
                  (allreduce_LOR []) 5 5 (5 # 1000) (1 # 1000) false
                  eq_refl)).
  - reflexivity.
  - reflexivity.
Defined.


(** Three workers; only the one of rank 1 holds an invalid state.  The
    healthy worker of rank 0 aborts with its checkpoint written. *)
Lemma health_failure_reaches_all_workers_witness :
  let pre :=
    worker_pre_step (fun s => s) (fun _ => false) xorb
      (fun dv => dv) (fun _ _ _ => false) (fun _ _ => (0%float, []))
      Simutil.check_step (source_settings 0 None)
      [(0, false); (1, true); (2, false)] 0 (0, false) 3 (3 # 1000) (1 # 1000) in
  In (Allreduce false true) (fst pre) /\
  count (is_viz_write 3) (fst pre) = 1%nat /\
  count (is_restart_write 3) (fst pre) = 1%nat /\
  snd pre = Raise (RuntimeError "Error detected at prestep, exiting.").
Proof.
  apply (fun D F =>
           health_failure_reaches_all_workers (fun s => s) (fun _ => false) xorb
             (fun dv => dv) (fun _ _ _ => false) (fun _ _ => (0%float, []))
             Simutil.check_step (source_settings 0 None)
             [(0, false); (1, true); (2, false)] 3 (3 # 1000) (1 # 1000)
             D F 0%nat (0, false) eq_refl).
  - reflexivity.
  - exists (1, true). split; [cbn; tauto|reflexivity].
Defined.

End PreStepExamples.

(** ** After the loop, and the fatal conditions *)

Module FinishFacts.

Lemma pulse_finish {State : Type}
    (sim_checkpoint : Z -> Q -> Q -> State -> result unit)
    (step : Z) (t : Q) (state : State) :
  sim_checkpoint step t (t - Pulse.checkpoint_t)%Q state = Ok tt ->
  snd (Pulse.main_after_advance sim_checkpoint step t state) =
    if Qle_bool 0 (t - Pulse.t_final)
    then Ok tt
    else Raise (ValueError "Simulation exited abnormally").
Proof.
  intros C. unfold Pulse.main_after_advance. cbn [Pulse.rank Z.eqb].
  rewrite C. now destruct (Qle_bool 0 (t - Pulse.t_final)).
Qed.

Lemma Qle_bool_false (a b : Q) : Qle_bool a b = false <-> ~ (a <= b)%Q.
Proof.
  rewrite <- Qle_bool_iff. destruct (Qle_bool a b); split; intros H;
    try discriminate; try reflexivity.
  now contradiction H.
Qed.

End FinishFacts.

Module FinishClaims.
Import FinishFacts PreStepFacts.

(** C7, as stated, fails for pulse.py: its check has no tolerance at
    all.  Whatever tolerance one proposes, some final time is rejected
    or accepted against it. *)
Lemma pulse_check_is_not_a_tolerance :
  ~ exists tol : Q,
      forall t : Q,
        snd (Pulse.main_after_advance (fun _ _ _ (_ : unit) => Ok tt) 0 t tt)
          = Raise (ValueError "Simulation exited abnormally") <->
        ~ (Qabs (t - Pulse.t_final) <= tol)%Q.
Proof.
  intros (tol & H).
  assert (P : forall t, snd (Pulse.main_after_advance
                               (fun _ _ _ (_ : unit) => Ok tt) 0 t tt) =
                        if Qle_bool 0 (t - Pulse.t_final) then Ok tt
                        else Raise (ValueError "Simulation exited abnormally")).
  { intros t. now apply pulse_finish. }
  destruct (H (2 + Qabs tol)%Q) as [_ H2].
  rewrite P in H2.
  assert (G : Qle_bool 0 (2 + Qabs tol - Pulse.t_final) = true).
  { apply Qle_bool_iff. unfold Pulse.t_final.
    pose proof (Qabs_nonneg tol). lra. }
  rewrite G in H2. 
  assert (N : ~ (Qabs (2 + Qabs tol - Pulse.t_final) <= tol)%Q).
  { intros A. unfold Pulse.t_final in A.
    pose proof (Qle_Qabs (2 + Qabs tol - 1)). pose proof (Qle_Qabs tol).
    lra. }
  specialize (H2 N). discriminate H2.
Qed.

(** C7, amended.  After [advance_state] has returned, scalar-lump-mpi
    raises its fatal error "Simulation timestepping did not complete."
    iff the achieved time is further than [finish_tol = 1e-16] from the
    final time, and otherwise goes on to the final checkpoint; pulse.py,
    once its final checkpoint has succeeded, raises "Simulation exited
    abnormally" iff the achieved time is below the final time, with no
    tolerance, and accepts any time at or beyond it. *)
Theorem finish_checks :
  (forall (State DV : Type) (dependent_vars : State -> DV)
          (initializer : Q -> State) (state_sub : State -> State -> State)
          (cfg : ScalarLump.settings) (step : Z) (t : Q) (state : State),
      let fin := ScalarLump.main_after_advance dependent_vars initializer
                   state_sub cfg step t state in
      (snd fin = Raise (RuntimeError "Simulation timestepping did not complete.")
       <-> ~ (Qabs (t - ScalarLump.t_final cfg) <= ScalarLump.finish_tol)%Q) /\
      (snd fin = Ok tt
       <-> (Qabs (t - ScalarLump.t_final cfg) <= ScalarLump.finish_tol)%Q)) /\
  (forall (State : Type) (sim_checkpoint : Z -> Q -> Q -> State -> result unit)
          (step : Z) (t : Q) (state : State),
      sim_checkpoint step t (t - Pulse.checkpoint_t)%Q state = Ok tt ->
      let fin := Pulse.main_after_advance sim_checkpoint step t state in
      (snd fin = Raise (ValueError "Simulation exited abnormally")
       <-> (t < Pulse.t_final)%Q) /\
      (snd fin = Ok tt <-> (Pulse.t_final <= t)%Q)).
Proof.
  split.
  - intros State DV dependent_vars initializer state_sub cfg step t state fin.
    destruct (finish_summary dependent_vars initializer state_sub cfg
                step t state) as (R & _).
    fold fin in R. rewrite R.
    destruct (Qle_bool (Qabs (t - ScalarLump.t_final cfg)) ScalarLump.finish_tol)
      eqn:E.
    + apply Qle_bool_iff in E. split; split; intros H;
        try discriminate; try reflexivity; try assumption.
      now contradiction H.
    + apply Qle_bool_false in E. split; split; intros H;
        try discriminate; try reflexivity; try assumption.
      now contradiction E.
  - intros State sim_checkpoint step t state C fin.
    pose proof (pulse_finish sim_checkpoint step t state C) as R.
    fold fin in R. rewrite R. unfold Pulse.t_final.
    destruct (Qle_bool 0 (t - 1)) eqn:E.
    + apply Qle_bool_iff in E. split; split; intros H;
        try discriminate; try reflexivity; lra.
    + apply Qle_bool_false in E. split; split; intros H;
        try discriminate; try reflexivity; lra.
Qed.

Lemma finish_checks_witness :
  (snd (ScalarLump.main_after_advance (fun s : bool => s) (fun _ => false) xorb
          (ScalarLump.source_settings 0 None) 5 (5 # 1000) false) = Ok tt) /\
  (snd (Pulse.main_after_advance (fun _ _ _ (_ : unit) => Ok tt)
          999 (999 # 1000) tt)
   = Raise (ValueError "Simulation exited abnormally")).
Proof.
  split.
  - apply (proj1 finish_checks bool bool (fun s => s) (fun _ => false) xorb
             (ScalarLump.source_settings 0 None) 5 (5 # 1000) false).
    vm_compute. discriminate.
  - apply (proj2 finish_checks unit (fun _ _ _ _ => Ok tt)
             999 (999 # 1000) tt eq_refl).
    reflexivity.
Defined.

(** C8, as stated, fails for the configuration error: the generic driver
    raises it before anything has been called, so nothing is persisted. *)
Lemma configuration_error_persists_nothing :
  exists f,
    GenericDriver.main (GenericDriver.fixed_step 7 (2 : Q) 10 1%Q (1 # 2)%Q) tt =
      (f, GenericDriver.Aborted
            (ValueError "Nothing to do, loop limits already met.")) /\
    GenericDriver.calls f = [].
Proof. eexists. split; reflexivity. Qed.

(** C8, amended.  The two fatal conditions of scalar-lump-mpi go through
    [my_graceful_exit]: when its pre-step raises, and when its finish
    check raises, one visualization file and one restart file for the
    current step have been written before.  The configuration error of
    the generic driver is raised at once, with nothing called and
    nothing persisted. *)
Theorem fatal_conditions_persist_state :
  (forall (State DV : Type) (dependent_vars : State -> DV)
          (initializer : Q -> State) (state_sub : State -> State -> State)
          (check_naninf_local : DV -> bool)
          (check_range_local : DV -> float -> float -> bool)
          (compare_fluid_solutions : State -> State -> float * list float)
          (check_step : Z -> Z -> bool)
          (cfg : ScalarLump.settings) (comm : bool -> bool)
          (step : Z) (t dt : Q) (state : State) (e : exn),
      let pre := ScalarLump.my_pre_step dependent_vars initializer state_sub
                   check_naninf_local check_range_local
                   compare_fluid_solutions check_step cfg comm
                   step t dt state in
      snd pre = Raise e ->
      e = RuntimeError "Error detected at prestep, exiting." /\
      ScalarLump.count (ScalarLump.is_viz_write step) (fst pre) = 1%nat /\
      ScalarLump.count (ScalarLump.is_restart_write step) (fst pre) = 1%nat) /\
  (forall (State DV : Type) (dependent_vars : State -> DV)
          (initializer : Q -> State) (state_sub : State -> State -> State)
          (cfg : ScalarLump.settings) (step : Z) (t : Q) (state : State)
          (e : exn),
      let fin := ScalarLump.main_after_advance dependent_vars initializer
                   state_sub cfg step t state in
      snd fin = Raise e ->
      e = RuntimeError "Simulation timestepping did not complete." /\
      ScalarLump.count (ScalarLump.is_viz_write step) (fst fin) = 1%nat /\
      ScalarLump.count (ScalarLump.is_restart_write step) (fst fin) = 1%nat) /\
  (forall (T : Type) (time_ops : TimeOps T) (State World RHS : Type)
          (usimu : GenericDriver.MySimulationObject T State World RHS)
          (w : World),
      GenericDriver.limits_met usimu
        (fst (GenericDriver.get_current_step_time usimu))
        (snd (GenericDriver.get_current_step_time usimu)) = true ->
      exists f,
        GenericDriver.main usimu w =
          (f, GenericDriver.Aborted
                (ValueError "Nothing to do, loop limits already met.")) /\
        GenericDriver.calls f = []).
Proof.
  split; [|split].
  - intros State DV dependent_vars initializer state_sub check_naninf_local
      check_range_local compare_fluid_solutions check_step cfg comm
      step t dt state e pre R.
    destruct (pre_step_summary dependent_vars initializer state_sub
                check_naninf_local check_range_local compare_fluid_solutions
                check_step cfg comm step t dt state)
      as (Hr & Hv & Hrs & _).
    fold pre in Hr, Hv, Hrs. rewrite R in Hr.
    destruct (ScalarLump.failed _ _ _ _ _ _ _ _ _ _ _); [|discriminate].
    inversion Hr; subst. repeat split; assumption.
  - intros State DV dependent_vars initializer state_sub cfg step t state
      e fin R.
    destruct (finish_summary dependent_vars initializer state_sub cfg
                step t state) as (Hr & Hv & Hrs).
    fold fin in Hr, Hv, Hrs. rewrite R in Hr.
    destruct (Qle_bool _ _); [discriminate|].
    inversion Hr; subst. repeat split; assumption.
  - intros T time_ops State World RHS usimu w L.
    exists (GenericDriver.entry usimu w).
    rewrite GenericDriverFacts.main_limits_met by exact L.
    split; reflexivity.
Qed.

Lemma fatal_conditions_persist_state_witness :
  (let pre := ScalarLump.sample_pre_step (ScalarLump.source_settings 0 None)
                (ScalarLump.allreduce_LOR []) 2 true in
   ScalarLump.count (ScalarLump.is_viz_write 2) (fst pre) = 1%nat /\
   ScalarLump.count (ScalarLump.is_restart_write 2) (fst pre) = 1%nat) /\
  (let fin := ScalarLump.main_after_advance (fun s : bool => s)
                (fun _ => false) xorb (ScalarLump.source_settings 0 None)
                4 (4 # 1000) false in
   ScalarLump.count (ScalarLump.is_viz_write 4) (fst fin) = 1%nat /\
   ScalarLump.count (ScalarLump.is_restart_write 4) (fst fin) = 1%nat) /\
  (exists f,
      GenericDriver.main (GenericDriver.fixed_step 0 (1 : Q) 10 1%Q (1 # 2)%Q) tt =
        (f, GenericDriver.Aborted
              (ValueError "Nothing to do, loop limits already met.")) /\
      GenericDriver.calls f = []).
Proof.
  split; [|split].
  - apply (proj1 fatal_conditions_persist_state bool bool (fun s => s)
             (fun _ => false) xorb (fun dv => dv) (fun _ _ _ => false)
             (fun _ _ => (0%float, [])) Simutil.check_step
             (ScalarLump.source_settings 0 None) (ScalarLump.allreduce_LOR [])
             2 (5 # 1000) (1 # 1000) true
             (RuntimeError "Error detected at prestep, exiting.")).
    reflexivity.
  - apply (proj1 (proj2 fatal_conditions_persist_state) bool bool (fun s => s)
             (fun _ => false) xorb (ScalarLump.source_settings 0 None)
             4 (4 # 1000) false
             (RuntimeError "Simulation timestepping did not complete.")).
    reflexivity.
  - apply (proj2 (proj2 fatal_conditions_persist_state) Q exact_time
             unit unit unit (GenericDriver.fixed_step 0 (1 : Q) 10 1%Q (1 # 2)%Q) tt).
    reflexivity.
Defined.

End FinishClaims.

(** ** compare_states *)

Module ErrorFacts.
Import Error Binary64Facts.

(** *** Scanning an array *)

Lemma maximum_nan (a b : float) :
  PrimFloat.is_nan (maximum a b) =
  PrimFloat.is_nan a || PrimFloat.is_nan b.
Proof.
  unfold maximum. destruct (PrimFloat.is_nan a) eqn:Na.
  - rewrite orb_true_r. exact Na.
  - rewrite orb_false_r. destruct (PrimFloat.is_nan b) eqn:Nb.
    + destruct (compare_nan b a Nb) as (_ & -> & _). exact Nb.
    + destruct (b <=? a)%float; cbn; trivial.
Qed.

Lemma minimum_nan (a b : float) :
  PrimFloat.is_nan (minimum a b) =
  PrimFloat.is_nan a || PrimFloat.is_nan b.
Proof.
  unfold minimum. destruct (PrimFloat.is_nan a) eqn:Na.
  - rewrite orb_true_r. exact Na.
  - rewrite orb_false_r. destruct (PrimFloat.is_nan b) eqn:Nb.
    + destruct (compare_nan b a Nb) as (_ & _ & _ & _ & -> & _). exact Nb.
    + destruct (a <=? b)%float; cbn; trivial.
Qed.

Lemma fold_maximum_nan (xs : field) : forall x,
  PrimFloat.is_nan (fold_left maximum xs x) =
  existsb PrimFloat.is_nan (x :: xs).
Proof.
  induction xs as [|y xs IH]; intros x; cbn [fold_left existsb].
  - now rewrite orb_false_r.
  - rewrite IH. cbn [existsb]. now rewrite maximum_nan, orb_assoc.
Qed.

Lemma fold_minimum_nan (xs : field) : forall x,
  PrimFloat.is_nan (fold_left minimum xs x) =
  existsb PrimFloat.is_nan (x :: xs).
Proof.
  induction xs as [|y xs IH]; intros x; cbn [fold_left existsb].
  - now rewrite orb_false_r.
  - rewrite IH. cbn [existsb]. now rewrite minimum_nan, orb_assoc.
Qed.

(** Of two floats that are not NaN, [maximum] is one of them and
    neither exceeds it. *)
Lemma maximum_cases (a b : float) :
  PrimFloat.is_nan a = false -> PrimFloat.is_nan b = false ->
  (maximum a b = a \/ maximum a b = b) /\
  (a <=? maximum a b)%float = true /\ (b <=? maximum a b)%float = true.
Proof.
  intros Na Nb. unfold maximum. rewrite Na, orb_false_r.
  destruct (b <=? a)%float eqn:E.
  - repeat split; auto. now apply leb_refl.
  - repeat split; auto; [|now apply leb_refl].
    destruct (leb_total a b Na Nb); congruence.
Qed.

Lemma minimum_cases (a b : float) :
  PrimFloat.is_nan a = false -> PrimFloat.is_nan b = false ->
  (minimum a b = a \/ minimum a b = b) /\
  (minimum a b <=? a)%float = true /\ (minimum a b <=? b)%float = true.
Proof.
  intros Na Nb. unfold minimum. rewrite Na, orb_false_r.
  destruct (a <=? b)%float eqn:E.
  - repeat split; auto. now apply leb_refl.
  - repeat split; auto; [|now apply leb_refl].
    destruct (leb_total a b Na Nb); congruence.
Qed.

Lemma fold_maximum_bounds (xs : field) : forall x,
  existsb PrimFloat.is_nan (x :: xs) = false ->
  In (fold_left maximum xs x) (x :: xs) /\
  Forall (fun y => (y <=? fold_left maximum xs x)%float = true) (x :: xs).
Proof.
  induction xs as [|y xs IH]; intros x N; cbn [fold_left].
  - cbn in N. rewrite orb_false_r in N. split; [now left|].
    constructor; [now apply leb_refl|constructor].
  - cbn [existsb] in N. apply orb_false_iff in N as [Nx N].
    apply orb_false_iff in N as [Ny N].
    destruct (maximum_cases x y Nx Ny) as (C & Lx & Ly).
    destruct (IH (maximum x y)) as (I & B).
    { cbn [existsb]. now rewrite maximum_nan, Nx, Ny, N. }
    inversion B as [|? ? Bm Bxs]; subst. split.
    + destruct I as [I|I]; [|now right; right].
      rewrite <- I. destruct C as [->| ->]; cbn; auto.
    + constructor; [now apply leb_trans with (maximum x y)|].
      constructor; [now apply leb_trans with (maximum x y)|exact Bxs].
Qed.

Lemma fold_minimum_bounds (xs : field) : forall x,
  existsb PrimFloat.is_nan (x :: xs) = false ->
  In (fold_left minimum xs x) (x :: xs) /\
  Forall (fun y => (fold_left minimum xs x <=? y)%float = true) (x :: xs).
Proof.
  induction xs as [|y xs IH]; intros x N; cbn [fold_left].
  - cbn in N. rewrite orb_false_r in N. split; [now left|].
    constructor; [now apply leb_refl|constructor].
  - cbn [existsb] in N. apply orb_false_iff in N as [Nx N].
    apply orb_false_iff in N as [Ny N].
    destruct (minimum_cases x y Nx Ny) as (C & Lx & Ly).
    destruct (IH (minimum x y)) as (I & B).
    { cbn [existsb]. now rewrite minimum_nan, Nx, Ny, N. }
    inversion B as [|? ? Bm Bxs]; subst. split.
    + destruct I as [I|I]; [|now right; right].
      rewrite <- I. destruct C as [->| ->]; cbn; auto.
    + constructor; [now apply leb_trans with (minimum x y)|].
      constructor; [now apply leb_trans with (minimum x y)|exact Bxs].
Qed.

(** [np.max] and [np.min] on an array with entries. *)
Lemma np_max_largest (a : field) :
  a <> [] -> exists m, np_max a = Ok m /\ largest a m.
Proof.
  destruct a as [|x xs]; [contradiction|]. intros _.
  exists (fold_left maximum xs x). split; [reflexivity|]. unfold largest.
  destruct (existsb PrimFloat.is_nan (x :: xs)) eqn:N.
  - now rewrite fold_maximum_nan.
  - now apply fold_maximum_bounds.
Qed.

Lemma np_min_smallest (a : field) :
  a <> [] -> exists m, np_min a = Ok m /\ smallest a m.
Proof.
  destruct a as [|x xs]; [contradiction|]. intros _.
  exists (fold_left minimum xs x). split; [reflexivity|]. unfold smallest.
  destruct (existsb PrimFloat.is_nan (x :: xs)) eqn:N.
  - now rewrite fold_minimum_nan.
  - now apply fold_minimum_bounds.
Qed.

(** *** Comprehensions *)

Lemma comprehension_spec {A B : Type} (f : A -> result B)
    (P : A -> B -> Prop) (l : list A) :
  (forall x, In x l -> exists y, f x = Ok y /\ P x y) ->
  exists ys, comprehension f l = Ok ys /\ Forall2 P l ys.
Proof.
  induction l as [|x l IH]; intros H; cbn.
  - exists []. split; [reflexivity|constructor].
  - destruct (H x (or_introl eq_refl)) as (y & E & Hy). rewrite E.
    destruct IH as (ys & Es & Hys).
    { intros x' Hx'. apply H. now right. }
    rewrite Es. exists (y :: ys). split; [reflexivity|now constructor].
Qed.

Lemma comprehension_first_failure {A B : Type} (f : A -> result B)
    (l : list A) (e : exn) :
  Exists (fun x => f x = Raise e) l ->
  (forall x e', In x l -> f x = Raise e' -> e' = e) ->
  comprehension f l = Raise e.
Proof.
  induction 1 as [x l E|x l _ IH]; intros U; cbn.
  - now rewrite E.
  - destruct (f x) as [y|e'] eqn:E.
    + rewrite IH; [reflexivity|]. intros x' e' Hx'. apply U. now right.
    + f_equal. apply (U x e'); [now left|exact E].
Qed.

Lemma comprehension_map {A B : Type} (g : A -> B) (l : list A) :
  comprehension (fun x => Ok (g x)) l = Ok (map g l).
Proof. induction l as [|x l IH]; cbn; [reflexivity|now rewrite IH]. Qed.

Lemma Forall2_nth_error {A B : Type} (P : A -> B -> Prop) (l : list A)
    (l' : list B) :
  Forall2 P l l' ->
  forall i x y, nth_error l i = Some x -> nth_error l' i = Some y -> P x y.
Proof.
  induction 1 as [|a b l l' H _ IH]; intros i x y Hx Hy.
  - destruct i; discriminate Hx.
  - destruct i as [|i]; cbn in *.
    + inversion Hx; inversion Hy; subst. exact H.
    + now apply (IH i).
Qed.

Lemma nth_error_same_length {A B : Type} (l : list A) (l' : list B)
    (i : nat) (x : A) :
  List.length l = List.length l' -> nth_error l i = Some x ->
  exists y, nth_error l' i = Some y.
Proof.
  intros L Hx. destruct (nth_error l' i) as [y|] eqn:E; [now exists y|].
  apply nth_error_None in E. rewrite <- L in E.
  apply nth_error_None in E. rewrite E in Hx. discriminate Hx.
Qed.

(** *** Broadcasting *)

Lemma broadcast_length_sym (n m : nat) :
  broadcast_length m n = broadcast_length n m.
Proof.
  unfold broadcast_length.
  destruct (Nat.eqb_spec m n), (Nat.eqb_spec n m), (Nat.eqb_spec m 1),
    (Nat.eqb_spec n 1); subst; try reflexivity; congruence.
Qed.

Lemma stretch_length {A} (a : list A) (m n : nat) :
  broadcast_length (List.length a) m = Some n \/
  broadcast_length m (List.length a) = Some n ->
  List.length (stretch n a) = n.
Proof.
  intros H. assert (B : broadcast_length (List.length a) m = Some n)
    by (destruct H as [H|H]; [exact H|now rewrite broadcast_length_sym]).
  clear H. unfold broadcast_length in B.
  destruct a as [|x [|y a]]; cbn [stretch].
  - cbn in B. destruct m as [|[|m]]; cbn in B; now inversion B.
  - apply repeat_length.
  - cbn [List.length] in *.
    destruct (Nat.eqb_spec (S (S (List.length a))) m).
    + now inversion B.
    + cbn in B. destruct (Nat.eqb_spec m 1); now inversion B.
Qed.

Lemma paired_same_length {A} (a b : list A) :
  List.length a = List.length b -> paired a b = Ok (combine a b).
Proof.
  intros L. unfold paired, broadcast_length. rewrite <- L, Nat.eqb_refl.
  assert (S : forall l : list A, stretch (List.length l) l = l)
    by (intros [|x [|y l]]; reflexivity).
  now rewrite S, L, S.
Qed.

Lemma combine_swap {A} (a b : list A) :
  combine b a = map (fun p => (snd p, fst p)) (combine a b).
Proof.
  revert b. induction a as [|x a IH]; intros [|y b]; cbn; trivial.
  now rewrite IH.
Qed.

Lemma paired_swap {A} (a b : list A) (ps : list (A * A)) :
  paired a b = Ok ps ->
  paired b a = Ok (map (fun p => (snd p, fst p)) ps).
Proof.
  unfold paired. rewrite (broadcast_length_sym (List.length a)).
  destruct (broadcast_length _ _); [|discriminate].
  intros E. inversion E; subst. now rewrite combine_swap.
Qed.

Lemma paired_entries {A} (a b : list A) :
  broadcast_length (List.length a) (List.length b) <> None ->
  a <> [] -> b <> [] ->
  exists ps, paired a b = Ok ps /\ ps <> [].
Proof.
  intros B Na Nb. unfold paired.
  destruct (broadcast_length _ _) as [n|] eqn:E; [|contradiction].
  exists (combine (stretch n a) (stretch n b)). split; [reflexivity|].
  assert (La : List.length (stretch n a) = n)
    by (apply (stretch_length a (List.length b)); now left).
  assert (Lb : List.length (stretch n b) = n)
    by (apply (stretch_length b (List.length a)); now right).
  assert (P : (0 < n)%nat).
  { unfold broadcast_length in E.
    destruct a as [|x a]; [contradiction|].
    destruct b as [|y b]; [contradiction|]. cbn [List.length] in E.
    destruct (Nat.eqb _ _); [inversion E; lia|].
    destruct (Nat.eqb _ _); [inversion E; lia|].
    destruct (Nat.eqb _ _); inversion E; lia. }
  intros C. apply (f_equal (@List.length _)) in C.
  rewrite length_combine, La, Lb in C. cbn in C. lia.
Qed.

(** *** One field *)

Lemma field_sub_paired (r b : field) (ps : list (float * float)) :
  paired r b = Ok ps ->
  field_sub r b = Ok (map (fun p => fst p - snd p)%float ps).
Proof.
  intros P. unfold field_sub, elementwise. rewrite P.
  apply (comprehension_map (fun p => fst p - snd p)%float).
Qed.

Lemma np_abs_differences (ps : list (float * float)) :
  np_abs (map (fun p => fst p - snd p)%float ps) =
  map (fun p => abs (fst p - snd p))%float ps.
Proof. unfold np_abs. now rewrite map_map. Qed.

(** An entry of an array of absolute values that holds no NaN is not
    negative. *)
Lemma largest_abs_nonneg (a : field) (m : float) :
  largest (np_abs a) m ->
  PrimFloat.is_nan m = true \/ (0 <=? m)%float = true.
Proof.
  unfold largest. destruct (existsb PrimFloat.is_nan (np_abs a)) eqn:N;
    [now left|].
  intros [I _]. right. unfold np_abs in *. apply in_map_iff in I as (x & <- & I).
  apply abs_nonneg. rewrite <- abs_nan.
  destruct (PrimFloat.is_nan (abs x)) eqn:E; trivial.
  assert (T : existsb PrimFloat.is_nan (map abs a) = true).
  { apply existsb_exists. exists (abs x). split; [now apply in_map|exact E]. }
  congruence.
Qed.

(** One field: the difference, its largest absolute value, and the same
    for the operands exchanged. *)
Lemma field_error (r b : field) :
  broadcast_length (List.length r) (List.length b) <> None ->
  r <> [] -> b <> [] ->
  exists d d' m,
    field_sub r b = Ok d /\ field_sub b r = Ok d' /\
    np_abs d' = np_abs d /\
    np_max (np_abs d) = Ok m /\
    max_abs_difference r b m /\
    (PrimFloat.is_nan m = true \/ (0 <=? m)%float = true).
Proof.
  intros B Nr Nb. destruct (paired_entries r b B Nr Nb) as (ps & P & Np).
  pose proof (field_sub_paired r b ps P) as D.
  pose proof (field_sub_paired b r _ (paired_swap r b ps P)) as D'.
  destruct (np_max_largest (np_abs (map (fun p => fst p - snd p)%float ps)))
    as (m & M & L).
  { destruct ps; [contradiction|discriminate]. }
  exists (map (fun p => fst p - snd p)%float ps),
         (map (fun p => fst p - snd p)%float
              (map (fun p => (snd p, fst p)) ps)), m.
  repeat apply conj; trivial.
  - rewrite !np_abs_differences, map_map. apply map_ext. intros [x y]. cbn.
    apply sub_abs_sym.
  - exists ps. split; [exact P|]. now rewrite <- np_abs_differences.
  - exact (largest_abs_nonneg _ m L).
Qed.

(** *** Whole states *)

(** How [compare_states] proceeds from field to field. *)
Lemma compare_states_cons (r b : field) (red blue : state) :
  List.length red = List.length blue ->
  compare_states (r :: red) (b :: blue) =
  match field_sub r b with
  | Raise e => Raise e
  | Ok d =>
    match state_sub red blue with
    | Raise e => Raise e
    | Ok resid =>
      match np_max (np_abs d) with
      | Raise e => Raise e
      | Ok m =>
        match comprehension (fun r => np_max (np_abs r)) resid with
        | Raise e => Raise e
        | Ok ms => Ok (m :: ms)
        end
      end
    end
  end.
Proof.
  intros L. unfold compare_states, state_sub, elementwise.
  rewrite !paired_same_length by (cbn; congruence). cbn.
  destruct (field_sub r b) as [d|e]; trivial.
  destruct (comprehension _ (combine red blue)) as [resid|e]; trivial.
Qed.

Lemma compare_states_step (r b : field) (red blue : state) (d : field)
    (m : float) (ms : list float) :
  List.length red = List.length blue ->
  field_sub r b = Ok d -> np_max (np_abs d) = Ok m ->
  compare_states red blue = Ok ms ->
  compare_states (r :: red) (b :: blue) = Ok (m :: ms).
Proof.
  intros L D M E. rewrite compare_states_cons, D, M by exact L.
  unfold compare_states in E.
  destruct (state_sub red blue) as [resid|e]; [|discriminate E].
  now rewrite E.
Qed.

(** States that can be subtracted field by field: one error per field,
    each the largest absolute difference of its field, not negative
    unless NaN; and the same list when the operands are exchanged. *)
Lemma compare_broadcastable (red blue : state) :
  broadcastable red blue ->
  exists errs,
    compare_states red blue = Ok errs /\
    List.length errs = List.length red /\
    (forall i r b m,
        nth_error red i = Some r -> nth_error blue i = Some b ->
        nth_error errs i = Some m -> max_abs_difference r b m) /\
    Forall (fun m => PrimFloat.is_nan m = true \/ (0 <=? m)%float = true)
           errs /\
    compare_states blue red = Ok errs.
Proof.
  induction 1 as [|r b red blue (B & Nr & Nb) F (errs & E & Hl & Hi & Hn & Es)].
  - exists []. repeat apply conj; trivial.
    intros i r b m Hr. destruct i; discriminate Hr.
  - pose proof (Forall2_length F) as L.
    destruct (field_error r b B Nr Nb) as (d & d' & m & D & D' & A & M & Hm & P).
    exists (m :: errs). repeat apply conj.
    + now apply (compare_states_step r b red blue d).
    + cbn. now rewrite Hl.
    + intros i r' b' m' Hr Hb He. destruct i as [|i]; cbn in *.
      * inversion Hr; inversion Hb; inversion He; subst. exact Hm.
      * now apply (Hi i r' b' m').
    + now constructor.
    + apply (compare_states_step b r blue red d'); trivial;
        try (symmetry; exact L).
      now rewrite A.
Qed.

Lemma conforming_broadcastable (red blue : state) :
  conforming red blue -> broadcastable red blue.
Proof.
  induction 1 as [|r b red blue [L N] _ IH]; constructor; trivial.
  repeat split; trivial.
  - unfold broadcast_length. now rewrite L, Nat.eqb_refl.
  - destruct r; [contradiction|]. destruct b; discriminate.
Qed.

(** *** A state compared with itself *)

Lemma fold_maximum_zeros (xs : field) :
  Forall (fun x => x = 0%float) xs -> fold_left maximum xs 0%float = 0%float.
Proof.
  induction 1 as [|x xs -> _ IH]; cbn; trivial.
Qed.

Lemma field_self (r : field) :
  r <> [] ->
  exists m,
    np_max (np_abs (map (fun p => fst p - snd p)%float (combine r r))) = Ok m /\
    if forallb PrimFloat.is_finite r then m = 0%float
    else PrimFloat.is_nan m = true.
Proof.
  intros N.
  set (d := np_abs (map (fun p => fst p - snd p)%float (combine r r))).
  assert (E : d = map (fun x => abs (x - x))%float r).
  { subst d. rewrite np_abs_differences. clear N.
    induction r as [|x r IH]; cbn; [reflexivity|now rewrite IH]. }
  destruct (forallb PrimFloat.is_finite r) eqn:F.
  - assert (Z : Forall (fun x => x = 0%float) d).
    { rewrite E. apply Forall_forall. intros z Hz.
      apply in_map_iff in Hz as (x & <- & Hx).
      rewrite forallb_forall in F. now rewrite (sub_self x (F x Hx)). }
    destruct d as [|z d]; [destruct r; [contradiction|discriminate E]|].
    inversion Z as [|? ? -> Zd]; subst. exists 0%float. cbn.
    now rewrite (fold_maximum_zeros d Zd).
  - destruct (np_max_largest d) as (m & M & L).
    { rewrite E. destruct r; [contradiction|discriminate]. }
    exists m. split; [exact M|]. unfold largest in L.
    assert (T : existsb PrimFloat.is_nan d = true).
    { apply existsb_exists.
      assert (X : exists x, In x r /\ PrimFloat.is_finite x = false).
      { clear - F. induction r as [|x r IH]; [discriminate F|]. cbn in F.
        destruct (PrimFloat.is_finite x) eqn:Fx.
        - destruct (IH F) as (y & Hy & Fy). exists y. split; [now right|trivial].
        - exists x. split; [now left|trivial]. }
      destruct X as (x & Hx & Fx). exists (abs (x - x))%float. split.
      - rewrite E. now apply (in_map (fun x => abs (x - x))%float).
      - rewrite abs_nan. now apply sub_self_nan. }
    now rewrite T in L.
Qed.

(** A state without empty field compared with itself: zero for a field
    whose entries are all finite, NaN for a field that holds an
    infinity or a NaN. *)
Lemma compare_self (red : state) :
  Forall (fun r => r <> []) red ->
  exists self,
    compare_states red red = Ok self /\
    List.length self = List.length red /\
    (forall i r m,
        nth_error red i = Some r -> nth_error self i = Some m ->
        if forallb PrimFloat.is_finite r then m = 0%float
        else PrimFloat.is_nan m = true).
Proof.
  induction 1 as [|r red N _ (self & E & Hl & Hz)].
  - exists []. repeat split. intros i r m Hr. destruct i; discriminate Hr.
  - destruct (field_self r N) as (m & M & Hm).
    exists (m :: self). repeat split.
    + apply (compare_states_step r r red red
               (map (fun p => fst p - snd p)%float (combine r r)));
        trivial.
      apply field_sub_paired. now apply paired_same_length.
    + cbn. now rewrite Hl.
    + intros i r' m' Hr He. destruct i as [|i]; cbn in *.
      * inversion Hr; inversion He; subst. exact Hm.
      * now apply (Hz i r' m').
Qed.

Lemma broadcastable_nonempty (red blue : state) :
  broadcastable red blue -> Forall (fun r => r <> []) red.
Proof.
  induction 1 as [|r b red blue (_ & N & _) _ IH]; constructor; trivial.
Qed.

Lemma conforming_nonempty (red blue : state) :
  conforming red blue -> Forall (fun r => r <> []) red.
Proof. induction 1 as [|r b red blue [_ N] _ IH]; constructor; trivial. Qed.

End ErrorFacts.

Module ErrorClaims.
Import Error ErrorFacts.

(** C10, as stated, fails in two ways.  Two states with one field
    without entries each have the same number of fields, and
    [compare_states] raises instead of returning a value; and a state
    with an infinite entry compared with itself gives NaN, which is
    neither zero nor non-negative. *)
Lemma compare_states_empty_or_infinite_field :
  (List.length ([[]] : state) = List.length ([[]] : state) /\
   compare_states [[]] [[]] =
     Raise (ValueError
       "zero-size array to reduction operation maximum which has no identity"))
  /\
  exists m,
    compare_states [[infinity]] [[infinity]] = Ok [m] /\
    (m =? 0)%float = false /\ (0 <=? m)%float = false.
Proof.
  split; [split; reflexivity|]. exists nan. repeat split.
Qed.

(** C10, amended.  For two states with the same number of fields whose
    corresponding fields have entries and can be subtracted (the same
    number of entries, or a single entry on one side),
    [compare_states] returns one value per field, the i-th being what
    [np.max] finds among the absolute differences of the i-th fields:
    NaN if one of the differences is NaN, otherwise the largest of
    them.  Every value is non-negative or NaN, exchanging the states
    gives the same list, and a state compared with itself gives zero
    for every field whose entries are all finite and NaN for a field
    holding an infinity or a NaN. *)
Theorem compare_states_spec (red blue : state) :
  broadcastable red blue ->
  exists errs self,
    compare_states red blue = Ok errs /\
    List.length errs = List.length red /\
    (forall i r b m,
        nth_error red i = Some r -> nth_error blue i = Some b ->
        nth_error errs i = Some m -> max_abs_difference r b m) /\
    Forall (fun m => PrimFloat.is_nan m = true \/ (0 <=? m)%float = true)
           errs /\
    compare_states blue red = Ok errs /\
    compare_states red red = Ok self /\
    List.length self = List.length red /\
    (forall i r m,
        nth_error red i = Some r -> nth_error self i = Some m ->
        if forallb PrimFloat.is_finite r then m = 0%float
        else PrimFloat.is_nan m = true).
Proof.
  intros C.
  destruct (compare_broadcastable red blue C) as (errs & E & Hl & Hi & Hn & Es).
  destruct (compare_self red (broadcastable_nonempty red blue C))
    as (self & S & Sl & Sz).
  exists errs, self. repeat apply conj; trivial.
Qed.

Lemma compare_states_spec_witness :
  exists errs self,
    compare_states [[1; 5]; [0.5]; [infinity]]%float
                   [[3; 1]; [0.25; 2]; [1]]%float = Ok errs /\
    List.length errs = 3%nat /\
    (forall i r b m,
        nth_error [[1; 5]; [0.5]; [infinity]]%float i = Some r ->
        nth_error [[3; 1]; [0.25; 2]; [1]]%float i = Some b ->
        nth_error errs i = Some m -> max_abs_difference r b m) /\
    Forall (fun m => PrimFloat.is_nan m = true \/ (0 <=? m)%float = true)
           errs /\
    compare_states [[3; 1]; [0.25; 2]; [1]]%float
                   [[1; 5]; [0.5]; [infinity]]%float = Ok errs /\
    compare_states [[1; 5]; [0.5]; [infinity]]%float
                   [[1; 5]; [0.5]; [infinity]]%float = Ok self /\
    List.length self = 3%nat /\
    (forall i r m,
        nth_error [[1; 5]; [0.5]; [infinity]]%float i = Some r ->
        nth_error self i = Some m ->
        if forallb PrimFloat.is_finite r then m = 0%float
        else PrimFloat.is_nan m = true).
Proof.
  apply (compare_states_spec [[1; 5]; [0.5]; [infinity]]%float
                             [[3; 1]; [0.25; 2]; [1]]%float).
  repeat constructor; discriminate.
Defined.

End ErrorClaims.

(** ** More on mirgecom/error.py *)

Module ErrorExtras.
Import Error Binary64Facts ErrorFacts.

Lemma field_stats_bounds {R : Type}
    (flat_obj_array : list float -> list float -> result R) (st : state) :
  Forall (fun f => f <> []) st ->
  exists field_mins field_maxs,
    get_field_stats flat_obj_array st = flat_obj_array field_mins field_maxs /\
    List.length field_mins = List.length st /\
    List.length field_maxs = List.length st /\
    (forall i f lo hi,
        nth_error st i = Some f -> nth_error field_mins i = Some lo ->
        nth_error field_maxs i = Some hi -> extrema f lo hi).
Proof.
  intros N. rewrite Forall_forall in N.
  destruct (comprehension_spec np_min smallest st) as (mins & Emin & Hmin).
  { intros f Hf. exact (np_min_smallest f (N f Hf)). }
  destruct (comprehension_spec np_max largest st) as (maxs & Emax & Hmax).
  { intros f Hf. exact (np_max_largest f (N f Hf)). }
  exists mins, maxs. unfold get_field_stats. rewrite Emin, Emax.
  repeat apply conj; trivial.
  - symmetry. exact (Forall2_length Hmin).
  - symmetry. exact (Forall2_length Hmax).
  - intros i f lo hi Hf Hlo Hhi. split.
    + exact (Forall2_nth_error _ _ _ Hmin i f lo Hf Hlo).
    + exact (Forall2_nth_error _ _ _ Hmax i f hi Hf Hhi).
Qed.

(** With no field empty, [get_field_stats] hands [flat_obj_array] one
    minimum and one maximum per field, in field order.  For a field
    that holds a NaN both are NaN; otherwise the i-th minimum and
    maximum are entries of the i-th field and bound all its entries. *)
Theorem get_field_stats_extrema {R : Type}
    (flat_obj_array : list float -> list float -> result R) (st : state) :
  Forall (fun f => f <> []) st ->
  exists field_mins field_maxs,
    get_field_stats flat_obj_array st = flat_obj_array field_mins field_maxs /\
    List.length field_mins = List.length st /\
    List.length field_maxs = List.length st /\
    (forall i f lo hi,
        nth_error st i = Some f -> nth_error field_mins i = Some lo ->
        nth_error field_maxs i = Some hi -> extrema f lo hi).
Proof.
  exact (field_stats_bounds flat_obj_array st).
Qed.

Lemma get_field_stats_extrema_witness :
  exists field_mins field_maxs,
    get_field_stats keep_both [[3; 1; 2]; [2.5; nan; 7]]%float
      = keep_both field_mins field_maxs /\
    List.length field_mins = 2%nat /\
    List.length field_maxs = 2%nat /\
    (forall i f lo hi,
        nth_error [[3; 1; 2]; [2.5; nan; 7]]%float i = Some f ->
        nth_error field_mins i = Some lo ->
        nth_error field_maxs i = Some hi -> extrema f lo hi).
Proof.
  apply (get_field_stats_extrema keep_both [[3; 1; 2]; [2.5; nan; 7]]%float).
  repeat constructor; discriminate.
Defined.

(** An empty field makes [get_field_stats] raise the [ValueError] of
    [np.min], whatever the other fields hold; [flat_obj_array] is not
    reached. *)
Theorem get_field_stats_empty_field {R : Type}
    (flat_obj_array : list float -> list float -> result R) (st : state) :
  In [] st ->
  get_field_stats flat_obj_array st =
    Raise (ValueError
      "zero-size array to reduction operation minimum which has no identity").
Proof.
  intros E. unfold get_field_stats.
  rewrite (comprehension_first_failure np_min st
             (ValueError
      "zero-size array to reduction operation minimum which has no identity")).
  - reflexivity.
  - apply Exists_exists. exists []. split; [exact E|reflexivity].
  - intros f e' _ F. destruct f; cbn in F; [now inversion F|discriminate F].
Qed.

Lemma get_field_stats_empty_field_witness :
  get_field_stats keep_both [[1]; []; [2]]%float =
    Raise (ValueError
      "zero-size array to reduction operation minimum which has no identity").
Proof.
  apply (get_field_stats_empty_field keep_both [[1]; []; [2]]%float).
  cbn. tauto.
Defined.

Lemma nth_error_combine {A} (r s : list A) (j : nat) (x y : A) :
  nth_error r j = Some x -> nth_error s j = Some y -> In (x, y) (combine r s).
Proof.
  revert s j. induction r as [|a r IH]; intros [|b s] [|j] Hx Hy;
    try discriminate; cbn in *.
  - inversion Hx; inversion Hy; subst. now left.
  - right. now apply (IH s j).
Qed.

(** If every error is zero, the two states agree entry by entry. *)
Theorem compare_states_zero_equal (a b : state) (errs : list float) :
  conforming a b -> compare_states a b = Ok errs ->
  Forall (fun m => (m =? 0)%float = true) errs ->
  forall i r s j x y,
    nth_error a i = Some r -> nth_error b i = Some s ->
    nth_error r j = Some x -> nth_error s j = Some y ->
    (x =? y)%float = true.
Proof.
  intros C E Z i r s j x y Hr Hs Hx Hy.
  destruct (compare_broadcastable a b (conforming_broadcastable a b C))
    as (errs' & E' & L & H & _).
  rewrite E in E'. inversion E'; subst errs'; clear E'.
  destruct (nth_error_same_length a errs i r (eq_sym L) Hr) as (m & Hm).
  destruct (H i r s m Hr Hs Hm) as (ps & P & Lg).
  rewrite paired_same_length in P
    by exact (proj1 (Forall2_nth_error _ _ _ C i r s Hr Hs)).
  inversion P; subst ps; clear P.
  rewrite Forall_forall in Z. pose proof (Z m (nth_error_In _ _ Hm)) as Zm.
  destruct (eqb_not_nan m 0 Zm) as [Nm _].
  destruct (eqb_leb m 0 Zm) as [Le _].
  unfold largest in Lg.
  destruct (existsb PrimFloat.is_nan _) eqn:N; [congruence|].
  destruct Lg as [_ B]. rewrite Forall_forall in B.
  assert (A : (abs (x - y) <=? m)%float = true).
  { apply B. apply (in_map (fun p => abs (fst p - snd p))%float _ (x, y)).
    now apply (nth_error_combine r s j). }
  destruct (leb_not_nan _ _ A) as [Na _]. rewrite abs_nan in Na.
  apply sub_zero_eq, abs_eq_zero, leb_antisym.
  - now apply leb_trans with m.
  - now apply abs_nonneg.
Qed.

Lemma compare_states_zero_equal_witness :
  compare_states [[0.5; 0]; [3]]%float [[0.5; -0]; [3]]%float
    = Ok [0; 0]%float /\
  forall i r s j x y,
    nth_error [[0.5; 0]; [3]]%float i = Some r ->
    nth_error [[0.5; -0]; [3]]%float i = Some s ->
    nth_error r j = Some x -> nth_error s j = Some y ->
    (x =? y)%float = true.
Proof.
  split; [reflexivity|].
  apply (compare_states_zero_equal [[0.5; 0]; [3]]%float
           [[0.5; -0]; [3]]%float [0; 0]%float).
  - repeat constructor; discriminate.
  - reflexivity.
  - repeat constructor.
Defined.

Lemma state_sub_cons (r b : field) (red blue : state) :
  List.length red = List.length blue ->
  state_sub (r :: red) (b :: blue) =
  match field_sub r b with
  | Raise e => Raise e
  | Ok d =>
    match state_sub red blue with
    | Raise e => Raise e
    | Ok resid => Ok (d :: resid)
    end
  end.
Proof.
  intros L. unfold state_sub, elementwise.
  now rewrite !paired_same_length by (cbn; congruence).
Qed.

Lemma state_sub_same_shape (a b : state) :
  same_shape a b ->
  exists resid,
    state_sub a b = Ok resid /\
    Forall2 (fun r d => List.length d = List.length r) a resid.
Proof.
  induction 1 as [|r s a b L F (resid & E & H)].
  - exists []. split; [reflexivity|constructor].
  - rewrite state_sub_cons by exact (Forall2_length F).
    rewrite (field_sub_paired r s _ (paired_same_length r s L)), E.
    eexists. split; [reflexivity|]. constructor; [|exact H].
    rewrite length_map, length_combine. lia.
Qed.

Lemma Forall2_In_left {A B : Type} (P : A -> B -> Prop) (l : list A)
    (l' : list B) (x : A) :
  Forall2 P l l' -> In x l -> exists y, In y l' /\ P x y.
Proof.
  induction 1 as [|a b l l' H _ IH]; intros []; subst.
  - exists b. split; [now left|exact H].
  - destruct IH as (y & Hy & Py); trivial. exists y. split; [now right|exact Py].
Qed.

(** Two states of the same shape with a field without entries make
    [compare_states] raise the [ValueError] of [np.max], whatever the
    other fields hold. *)
Theorem compare_states_empty_field (a b : state) :
  same_shape a b -> In [] a ->
  compare_states a b =
    Raise (ValueError
      "zero-size array to reduction operation maximum which has no identity").
Proof.
  intros S E. unfold compare_states.
  destruct (state_sub_same_shape a b S) as (resid & R & H). rewrite R.
  apply comprehension_first_failure.
  - apply Exists_exists.
    destruct (Forall2_In_left _ _ _ [] H E) as (d & Hd & Ld).
    exists d. split; [exact Hd|]. destruct d; [reflexivity|discriminate Ld].
  - intros d e' _ F. destruct d; cbn in F; [now inversion F|discriminate F].
Qed.

Lemma compare_states_empty_field_witness :
  compare_states [[1; 2]; []]%float [[0; 5]; []]%float =
    Raise (ValueError
      "zero-size array to reduction operation maximum which has no identity").
Proof.
  apply (compare_states_empty_field [[1; 2]; []]%float [[0; 5]; []]%float).
  - repeat constructor.
  - cbn. tauto.
Defined.

End ErrorExtras.

(** ** More on the generic stepping loop *)

Module GenericDriverExtras.
Import GenericDriver GenericDriverFacts.

Section Loop.

Context {T : Type} {time_ops : TimeOps T}.
Context {State World RHS : Type}.
Variable usimu : MySimulationObject T State World RHS.

(** The three ways a pass can go: pre-step raises, the Timestepper
    raises, or post-step is reached (and returns or raises). *)
Lemma iteration_shape f f' r :
  iteration usimu f = (f', r) ->
  (exists e s t st, r = Raise e /\
     current_step f' = current_step f /\ current_t f' = current_t f /\
     calls f' = calls f ++ [PrestepCall s t st]) \/
  (exists e s t st st' t' dt rhs, r = Raise e /\
     current_step f' = current_step f /\ current_t f' = current_t f /\
     calls f' = calls f ++ [PrestepCall s t st; TimestepperCall st' t' dt rhs]) \/
  (exists s t st st' t' dt rhs s'' t'' st'',
     current_step f' = current_step f + 1 /\
     current_t f' = tadd (current_t f) dt /\
     calls f' = calls f ++ [PrestepCall s t st; TimestepperCall st' t' dt rhs;
                            PoststepCall s'' t'' st'']).
Proof.
  unfold iteration, log. intros E.
  destruct (prestep_function usimu _ _ _ _) as [w1 [[state dt]|e1]].
  - destruct (timestepper_function usimu _ _ _ _ _) as [w2 [new_state|e2]].
    + right; right.
      destruct (poststep_function usimu _ _ _ _) as [w3 [[]|e3]];
        inversion E; subst; cbn; do 10 eexists;
        rewrite <- !app_assoc; cbn; repeat split.
    + right; left. inversion E; subst; cbn. do 8 eexists.
      rewrite <- !app_assoc; cbn. repeat split.
  - left. inversion E; subst; cbn. do 4 eexists. repeat split.
Qed.

Lemma stepping_accounting budget : forall f f' s,
  stepping usimu budget f = (f', s) ->
  current_step f' - Z.of_nat (poststep_calls f')
    = current_step f - Z.of_nat (poststep_calls f) /\
  finalize_calls f' = finalize_calls f /\
  (forall M, current_step f <= M -> step_max usimu <= M -> current_step f' <= M).
Proof.
  induction budget as [|budget IH]; intros f f' s E; cbn in E.
  - destruct (loop_condition usimu f); inversion E; subst; repeat split; trivial.
  - destruct (loop_condition usimu f) eqn:C;
      [|inversion E; subst; repeat split; trivial].
    unfold loop_condition in C. apply andb_prop in C as [_ C].
    apply Z.ltb_lt in C.
    destruct (iteration usimu f) as [f1 r] eqn:I.
    assert (A : current_step f1 - Z.of_nat (poststep_calls f1)
                = current_step f - Z.of_nat (poststep_calls f) /\
                finalize_calls f1 = finalize_calls f /\
                current_step f1 <= current_step f + 1).
    { unfold poststep_calls, finalize_calls.
      destruct (iteration_shape _ _ _ I)
        as [(e&?&?&?&_&S&_&L)|[(e&?&?&?&?&?&?&?&_&S&_&L)|(?&?&?&?&?&?&?&?&?&?&S&_&L)]];
        rewrite L, S, !filter_app, !length_app; cbn; repeat split; lia. }
    destruct A as (A1 & A2 & A3).
    destruct r as [[]|e].
    + destruct (IH _ _ _ E) as (B1 & B2 & B3). repeat split; try congruence.
      intros M H1 H2. apply B3; lia.
    + inversion E; subst. repeat split; trivial. intros M H1 H2. lia.
Qed.

Lemma stepping_counts budget : forall f f' s,
  stepping usimu budget f = (f', s) ->
  poststep_calls f = passes f -> timestepper_calls f = passes f ->
  (poststep_calls f' <= timestepper_calls f' <= passes f')%nat /\
  (passes f' <= poststep_calls f' + 1)%nat /\
  (s = Completed ->
   poststep_calls f' = passes f' /\ timestepper_calls f' = passes f').
Proof.
  induction budget as [|budget IH]; intros f f' s E P Q; cbn in E.
  - destruct (loop_condition usimu f); inversion E; subst;
      repeat split; try lia; discriminate.
  - destruct (loop_condition usimu f);
      [|inversion E; subst; repeat split; lia].
    destruct (iteration usimu f) as [f1 r] eqn:I.
    unfold poststep_calls, timestepper_calls, passes in *.
    destruct (iteration_shape _ _ _ I)
      as [(e&?&?&?&R&_&_&L)|[(e&?&?&?&?&?&?&?&R&_&_&L)|(?&?&?&?&?&?&?&?&?&?&_&_&L)]].
    + subst r. inversion E; subst.
      rewrite L, !filter_app, !length_app; cbn.
      repeat split; try lia; discriminate.
    + subst r. inversion E; subst.
      rewrite L, !filter_app, !length_app; cbn.
      repeat split; try lia; discriminate.
    + assert (P1 : List.length (filter is_poststep_call (calls f1)) =
                   List.length (filter is_prestep_call (calls f1)))
        by (rewrite L, !filter_app, !length_app; cbn; lia).
      assert (Q1 : List.length (filter is_timestepper_call (calls f1)) =
                   List.length (filter is_prestep_call (calls f1)))
        by (rewrite L, !filter_app, !length_app; cbn; lia).
      destruct r as [[]|e].
      * exact (IH _ _ _ E P1 Q1).
      * inversion E; subst. repeat split; try lia; discriminate.
Qed.

(** [main] is the configuration error, or the loop followed by
    [conclude]. *)
Lemma main_cases (w : World) (f : frame T State World RHS) (s : status) :
  main usimu w = (f, s) ->
  (f = entry usimu w /\
   s = Aborted (ValueError "Nothing to do, loop limits already met.") /\
   limits_met usimu (current_step f) (current_t f) = true) \/
  (limits_met usimu (current_step (entry usimu w))
                    (current_t (entry usimu w)) = false /\
   exists f1 s1,
     stepping usimu (Z.to_nat (step_max usimu - current_step (entry usimu w)))
              (entry usimu w) = (f1, s1) /\
     ((s1 <> Completed /\ f = f1 /\ s = s1) \/
      (s1 = Completed /\ current_step f = current_step f1 /\
       current_t f = current_t f1 /\ current_state f = current_state f1 /\
       calls f = calls f1 ++ [FinalizeCall] /\
       (s = Completed \/ exists e, s = Aborted e)))).
Proof.
  unfold main. destruct (limits_met usimu _ _) eqn:L.
  - intros E. inversion E; subst. left. repeat split. exact L.
  - destruct (stepping usimu _ (entry usimu w)) as [f1 s1] eqn:E.
    intros M. right. split; [reflexivity|]. exists f1, s1. split; [reflexivity|].
    destruct s1; cbn in M.
    + right. unfold log in M.
      destruct (finalize_simuation usimu (world f1)) as [w' [[]|e]];
        inversion M; subst; cbn; repeat split; eauto.
    + left. inversion M; subst. repeat split. discriminate.
    + left. inversion M; subst. repeat split. discriminate.
Qed.

(** However a run ends, its step counter is the step it started from
    plus the number of post-step calls made, and it is never beyond the
    step limit unless the run started there. *)
Theorem step_counter_accounting (w : World) :
  let f := fst (main usimu w) in
  current_step f =
    fst (get_current_step_time usimu) + Z.of_nat (poststep_calls f) /\
  current_step f <= Z.max (fst (get_current_step_time usimu)) (step_max usimu).
Proof.
  destruct (main usimu w) as [f s] eqn:M. cbn.
  destruct (main_cases w f s M) as [(-> & _ & _)|(_ & f1 & s1 & E & H)].
  - cbn. split; lia.
  - destruct (stepping_accounting _ _ _ _ E) as (A & _ & B).
    specialize (B (Z.max (fst (get_current_step_time usimu)) (step_max usimu))).
    cbn in A, B.
    destruct H as [(_ & -> & _)|(_ & S & _ & _ & C & _)].
    + split; [lia|]. apply B; lia.
    + unfold poststep_calls in *. rewrite C, filter_app, length_app, S. cbn.
      split; [lia|]. apply B; lia.
Qed.

(** However a run ends, the callbacks have been called in step: never
    more post-step calls than Timestepper calls, never more Timestepper
    calls than pre-step calls, and at most one pre-step call that was
    not followed through to post-step (the pass in which a callback
    raised).  When [main] completes the three numbers are equal. *)
Theorem callbacks_in_step (w : World) :
  let f := fst (main usimu w) in
  (poststep_calls f <= timestepper_calls f <= passes f)%nat /\
  (passes f <= poststep_calls f + 1)%nat /\
  (snd (main usimu w) = Completed ->
   poststep_calls f = passes f /\ timestepper_calls f = passes f).
Proof.
  destruct (main usimu w) as [f s] eqn:M. cbn.
  destruct (main_cases w f s M) as [(-> & -> & _)|(_ & f1 & s1 & E & H)].
  - cbn. repeat split; try lia; discriminate.
  - destruct (stepping_counts _ _ _ _ E eq_refl eq_refl) as (A & B & C).
    destruct H as [(_ & -> & ->)|(-> & _ & _ & _ & L & _)].
    + split; [exact A|]. split; [exact B|exact C].
    + destruct (C eq_refl) as (C1 & C2).
      unfold poststep_calls, timestepper_calls, passes in *.
      rewrite L, !filter_app, !length_app; cbn. repeat split; lia.
Qed.

(** [finalize_simuation] is called at most once, as the last call of a
    run whose loop ran until its condition was false; a run that ends
    with the configuration error or with an exception from a callback
    of the loop never calls it. *)
Theorem finalize_only_after_loop (w : World) :
  let f := fst (main usimu w) in
  (finalize_calls f = 0%nat /\ exists e, snd (main usimu w) = Aborted e) \/
  (exists cs, calls f = cs ++ [FinalizeCall] /\
              filter is_finalize_call cs = [] /\
              loop_condition usimu f = false).
Proof.
  destruct (main usimu w) as [f s] eqn:M. cbn.
  destruct (main_cases w f s M) as [(-> & -> & _)|(_ & f1 & s1 & E & H)].
  - left. split; [reflexivity|eauto].
  - destruct (stepping_accounting _ _ _ _ E) as (_ & F & _).
    destruct H as [(N & -> & ->)|(-> & S & Tm & _ & L & _)].
    + left. split; [exact F|].
      destruct s1; [contradiction| eauto |].
      exfalso.
      pose proof (stepping_finishes usimu
                    (Z.to_nat (step_max usimu - current_step (entry usimu w)))
                    (entry usimu w)) as U.
      rewrite E in U. apply U; [lia|reflexivity].
    + right. exists (calls f1). repeat split; trivial.
      * unfold finalize_calls in F. cbn in F.
        now apply length_zero_iff_nil.
      * pose proof (stepping_completed usimu _ _ _ E) as C.
        unfold loop_condition in *. now rewrite S, Tm.
Qed.

End Loop.

Section Exact.

Context {State World RHS : Type}.
Variable usimu : MySimulationObject Q State World RHS.
Variable dt : Q.

(** Pre-step always answers with the step size [dt]. *)
Hypothesis fixed_dt : forall w step t state w' state' dt',
  prestep_function usimu w step t state = (w', Ok (state', dt')) -> dt' = dt.

Lemma stepping_last_pass budget : forall f f',
  stepping usimu budget f = (f', Completed) ->
  f' = f \/ (current_t f' - dt < t_final usimu)%Q.
Proof.
  induction budget as [|budget IH]; intros f f' E; cbn in E.
  - destruct (loop_condition usimu f); inversion E; subst. now left.
  - destruct (loop_condition usimu f) eqn:C; [|inversion E; subst; now left].
    destruct (iteration usimu f) as [f1 [[]|e]] eqn:I; [|discriminate].
    destruct (iteration_ok _ _ _ I) as (w1&state&dt'&w2&ns&w3&P&_&_&->).
    apply fixed_dt in P. subst dt'. right.
    unfold loop_condition in C. apply andb_prop in C as [C _]. cbn in C.
    apply negb_true_iff in C.
    assert (Lt : (current_t f < t_final usimu)%Q).
    { apply Qnot_le_lt. intros H. apply Qle_bool_iff in H. congruence. }
    destruct (IH _ _ E) as [->|H]; [|exact H].
    unfold t_final in *. cbn.
    change (tadd (current_t f) dt) with (current_t f + dt)%Q.
    assert (R : (current_t f + dt - dt == current_t f)%Q) by ring.
    rewrite R. exact Lt.
Qed.

(** With exact time and a fixed step size, a run that completes before
    the step limit has reached the final time and overshot it by less
    than one step size: the loop does not shorten its last step. *)
Theorem overshoot_below_one_step (w : World) :
  snd (main usimu w) = Completed ->
  current_step (fst (main usimu w)) < step_max usimu ->
  (t_final usimu <= current_t (fst (main usimu w))
   < t_final usimu + dt)%Q.
Proof.
  destruct (main usimu w) as [f s] eqn:M. cbn. intros -> S.
  destruct (main_cases usimu w f Completed M)
    as [(_ & A & _)|(L & f1 & s1 & E & H)]; [discriminate|].
  destruct H as [(N & _ & <-)|(-> & Sf & Tf & _)]; [now contradiction N|].
  pose proof (stepping_completed usimu _ _ _ E) as C.
  pose proof (stepping_last_pass _ _ _ E) as P.
  rewrite Sf in S. rewrite Tf.
  unfold loop_condition in C. apply andb_false_iff in C.
  destruct C as [C|C]; [|apply Z.ltb_ge in C; lia].
  cbn in C. apply negb_false_iff, Qle_bool_iff in C. split; [exact C|].
  destruct P as [->|P]; [|lra].
  unfold limits_met in L. apply orb_false_iff in L as [L _]. cbn in L, C.
  apply Qle_bool_iff in C. congruence.
Qed.

End Exact.

Lemma overshoot_below_one_step_witness :
  let usimu := fixed_step 0 (0 : Q) 10 1%Q (3 # 10)%Q in
  (t_final usimu <= current_t (fst (main usimu tt))
   < t_final usimu + (3 # 10))%Q.
Proof.
  apply (overshoot_below_one_step (fixed_step 0 (0 : Q) 10 1%Q (3 # 10)%Q)
           (3 # 10)%Q).
  - intros w step t state w' state' dt' E. now inversion E.
  - reflexivity.
  - reflexivity.
Defined.

Lemma is_nan_spec (x : float) : PrimFloat.is_nan x = true -> Prim2SF x = S754_nan.
Proof.
  unfold PrimFloat.is_nan. rewrite eqb_spec. unfold SFeqb.
  destruct (Prim2SF x) as [s|s| |s m e]; cbn; try reflexivity.
  - destruct s; discriminate.
  - destruct s; discriminate.
  - rewrite Z.compare_refl, Pos.compare_cont_refl. destruct s; discriminate.
Qed.

Lemma nan_add (t dt : float) : PrimFloat.is_nan dt = true -> PrimFloat.is_nan (t + dt)%float = true.
Proof.
  intros H. apply is_nan_spec in H.
  assert (E : Prim2SF (t + dt)%float = S754_nan).
  { rewrite add_spec, H. unfold SF64add. destruct (Prim2SF t); reflexivity. }
  unfold PrimFloat.is_nan. rewrite eqb_spec, E. reflexivity.
Qed.

Lemma nan_add_l (t dt : float) : PrimFloat.is_nan t = true -> PrimFloat.is_nan (t + dt)%float = true.
Proof.
  intros H. apply is_nan_spec in H.
  assert (E : Prim2SF (t + dt)%float = S754_nan).
  { rewrite add_spec, H. reflexivity. }
  unfold PrimFloat.is_nan. rewrite eqb_spec, E. reflexivity.
Qed.

Lemma nan_ltb (t x : float) : PrimFloat.is_nan t = true -> tlt t x = false /\ tge t x = false.
Proof.
  intros H. apply is_nan_spec in H. cbn. rewrite ltb_spec, leb_spec, H.
  unfold SFltb, SFleb. cbn. destruct (Prim2SF x); split; reflexivity.
Qed.

Section NaN.

Context {State World RHS : Type}.
Variable usimu : MySimulationObject float State World RHS.

(** Pre-step always answers with a NaN step size. *)
Hypothesis nan_dt : forall w step t state w' state' dt',
  prestep_function usimu w step t state = (w', Ok (state', dt')) ->
  PrimFloat.is_nan dt' = true.

Lemma stepping_nan_time budget f :
  PrimFloat.is_nan (current_t f) = true ->
  stepping usimu budget f = (f, Completed).
Proof.
  intros N. destruct (nan_ltb (current_t f) (t_final usimu) N) as [L _].
  destruct budget; cbn; unfold loop_condition; now rewrite L.
Qed.

Lemma stepping_nan_dt budget : forall f f',
  stepping usimu budget f = (f', Completed) ->
  f' = f \/
  (passes f' = S (passes f) /\ current_step f' = current_step f + 1 /\
   PrimFloat.is_nan (current_t f') = true).
Proof.
  destruct budget as [|budget]; intros f f' E; cbn in E.
  - destruct (loop_condition usimu f); inversion E; subst. now left.
  - destruct (loop_condition usimu f) eqn:C; [|inversion E; subst; now left].
    destruct (iteration usimu f) as [f1 [[]|e]] eqn:I; [|discriminate].
    destruct (iteration_ok _ _ _ I) as (w1&state&dt'&w2&ns&w3&P&_&_&->).
    apply nan_dt in P.
    rewrite stepping_nan_time in E by (cbn; now apply nan_add).
    inversion E; subst. right. unfold passes; cbn.
    rewrite filter_app, length_app; cbn. repeat split; try lia.
    now apply nan_add.
Qed.

(** On Python floats, a step size that is NaN ends the run quietly: a
    run that completes has made at most one pass, and after that pass
    the time is NaN and, unless the step limit is reached with it, the
    run has completed with neither limit met. *)
Theorem nan_step_size_ends_run (w : World) :
  snd (main usimu w) = Completed ->
  let f := fst (main usimu w) in
  (passes f <= 1)%nat /\
  (passes f = 1%nat ->
   current_step f = fst (get_current_step_time usimu) + 1 /\
   PrimFloat.is_nan (current_t f) = true /\
   (current_step f < step_max usimu ->
    limits_met usimu (current_step f) (current_t f) = false)).
Proof.
  destruct (main usimu w) as [f s] eqn:M. cbn. intros ->.
  destruct (main_cases usimu w f Completed M)
    as [(_ & A & _)|(L & f1 & s1 & E & H)]; [discriminate|].
  assert (K : passes f = passes f1 /\ current_step f = current_step f1 /\
              current_t f = current_t f1).
  { destruct H as [(_ & -> & _)|(_ & S & Tm & _ & C & _)]; [now repeat split|].
    unfold passes. rewrite C, filter_app, length_app. cbn.
    repeat split; trivial; lia. }
  destruct K as (Kp & Ks & Kt). rewrite Kp, Ks, Kt.
  assert (s1 = Completed) as ->.
  { destruct H as [(_ & _ & <-)|(-> & _)]; reflexivity. }
  destruct (stepping_nan_dt _ _ _ E) as [->|(P & S & N)].
  - split; [cbn; lia|]. cbn. discriminate.
  - cbn in P, S. rewrite P. split; [lia|]. intros _. repeat split; trivial.
    intros B. unfold limits_met.
    destruct (nan_ltb (current_t f1) (t_final usimu) N) as [_ G].
    rewrite G. cbn. rewrite Z.geb_leb. apply Z.leb_gt. exact B.
Qed.

End NaN.

Lemma nan_step_size_ends_run_witness :
  let usimu := fixed_step 0 0%float 10 1%float nan in
  let f := fst (main usimu tt) in
  (passes f <= 1)%nat /\
  (passes f = 1%nat ->
   current_step f = fst (get_current_step_time usimu) + 1 /\
   PrimFloat.is_nan (current_t f) = true /\
   (current_step f < step_max usimu ->
    limits_met usimu (current_step f) (current_t f) = false)).
Proof.
  apply (nan_step_size_ends_run (fixed_step 0 0%float 10 1%float nan)).
  - intros w step t state w' state' dt' E. now inversion E.
  - reflexivity.
Defined.

End GenericDriverExtras.

(** ** More on scalar-lump-mpi *)

Module PreStepExtras.
Import ScalarLump PreStepFacts Binary64Facts.

(** *** Python's [max] on floats *)

Lemma py_max_nan_first (xs : list float) (x : float) :
  PrimFloat.is_nan x = true ->
  fold_left (fun largest item => if (largest <? item)%float then item
                                 else largest) xs x = x.
Proof.
  intros N. induction xs as [|y xs IH]; cbn; trivial.
  destruct (compare_nan x y N) as (-> & _). exact IH.
Qed.

(** With a first item that is not NaN, [max] returns an item that is
    not NaN and that no item exceeds. *)
Lemma py_max_bounds (xs : list float) : forall x,
  PrimFloat.is_nan x = false ->
  let m := py_max (x, xs) in
  PrimFloat.is_nan m = false /\ In m (x :: xs) /\
  forall y, In y (x :: xs) -> (m <? y)%float = false.
Proof.
  unfold py_max. cbn [fst snd].
  induction xs as [|y xs IH]; intros x N; cbn [fold_left].
  - repeat split; [exact N|now left|]. intros y [<-|[]].
    destruct (x <? x)%float eqn:E; trivial.
    apply ltb_key in E as (_ & _ & K). now apply key_lt_irrefl in K.
  - set (m' := if (x <? y)%float then y else x).
    assert (N' : PrimFloat.is_nan m' = false).
    { subst m'. destruct (x <? y)%float eqn:E; trivial.
      now destruct (ltb_not_nan x y E). }
    destruct (IH m' N') as (Nm & I & B).
    set (m := fold_left _ xs m') in *.
    repeat split; trivial.
    + destruct I as [I|I]; [|now right; right].
      rewrite <- I. subst m'. destruct (x <? y)%float; cbn; auto.
    + pose proof (B m' (or_introl eq_refl)) as Bm.
      intros z [<-|[<-|Hz]]; [| |apply B; now right].
      * subst m'. destruct (x <? y)%float eqn:E; trivial.
        destruct (m <? x)%float eqn:F; trivial.
        rewrite (ltb_trans m x y F E) in Bm. discriminate Bm.
      * subst m'. destruct (x <? y)%float eqn:E; trivial.
        destruct (m <? y)%float eqn:F; trivial.
        destruct (ltb_not_nan m y F) as [_ Ny].
        destruct (ltb_or_leb x y N Ny) as [L|L]; [congruence|].
        rewrite (ltb_leb_trans m y x F L) in Bm. discriminate Bm.
Qed.

(** With a first item that is not NaN, [max] exceeds a bound exactly
    when some item does. *)
Lemma py_max_exceeds (errors : float * list float) (tol : float) :
  PrimFloat.is_nan (fst errors) = false ->
  (tol <? py_max errors)%float = true <->
  exists e, In e (fst errors :: snd errors) /\ (tol <? e)%float = true.
Proof.
  destruct errors as [x xs]. cbn [fst snd]. intros N.
  destruct (py_max_bounds xs x N) as (Nm & I & B). split.
  - intros H. now exists (py_max (x, xs)).
  - intros (e & He & H). destruct (ltb_not_nan tol e H) as [_ Ne].
    destruct (ltb_or_leb (py_max (x, xs)) e Nm Ne) as [L|L].
    + rewrite (B e He) in L. discriminate L.
    + now apply ltb_leb_trans with e.
Qed.

Section PreStep.

Context {State DV : Type}.
Variable dependent_vars : State -> DV.
Variable initializer : Q -> State.
Variable state_sub : State -> State -> State.
Variable check_naninf_local : DV -> bool.
Variable check_range_local : DV -> float -> float -> bool.
Variable compare_fluid_solutions : State -> State -> float * list float.
Variable check_step : Z -> Z -> bool.
Variable cfg : settings.

Abbreviation health_check :=
  (my_health_check check_naninf_local check_range_local
     compare_fluid_solutions cfg).
Abbreviation verdict :=
  (health_verdict dependent_vars initializer check_naninf_local
     check_range_local compare_fluid_solutions cfg).
Abbreviation pre_step :=
  (my_pre_step dependent_vars initializer state_sub check_naninf_local
     check_range_local compare_fluid_solutions check_step cfg).

Lemma health_log_own (step : Z) (t : Q) (state : State)
    (e : @event State DV) :
  is_health_log e = true -> own_write cfg step t state e.
Proof. destruct e; try discriminate; intros _; exact I. Qed.

Lemma health_logs_own (step : Z) (t : Q) (state : State)
    (htr : list (@event State DV)) :
  forallb is_health_log htr = true ->
  forall e, In e htr -> own_write cfg step t state e.
Proof.
  intros F e He. rewrite forallb_forall in F.
  apply health_log_own. now apply F.
Qed.

Lemma health_log_not_viz_any (e : @event State DV) :
  is_health_log e = true -> is_viz e = false.
Proof. destruct e; try discriminate; reflexivity. Qed.

Lemma health_log_not_restart_any (e : @event State DV) :
  is_health_log e = true -> is_restart e = false.
Proof. destruct e; try discriminate; reflexivity. Qed.

Lemma health_log_not_allreduce (e : @event State DV) :
  is_health_log e = true -> is_allreduce e = false.
Proof. destruct e; try discriminate; reflexivity. Qed.

Lemma reductions_first_logs (htr l : list (@event State DV)) :
  forallb is_health_log htr = true ->
  reductions_first (htr ++ l) = reductions_first l.
Proof.
  induction htr as [|e htr IH]; cbn [forallb app]; [reflexivity|].
  intros F. apply andb_prop in F as [He Htr]. cbn [reductions_first].
  rewrite (health_log_not_viz_any e He), (health_log_not_restart_any e He).
  cbn. now apply IH.
Qed.

Ltac tally2 htr Hlog :=
  repeat first [rewrite count_app | rewrite count_cons | rewrite count_nil];
  rewrite ?(count_health_log _ htr health_log_not_viz_any Hlog),
          ?(count_health_log _ htr health_log_not_restart_any Hlog),
          ?(count_health_log _ htr health_log_not_allreduce Hlog);
  cbn; try reflexivity; try lia.

Lemma pre_step_details (comm : bool -> bool) (step : Z) (t dt : Q)
    (state : State) :
  let tr := fst (pre_step comm step t dt state) in
  (forall e, In e tr -> own_write cfg step t state e) /\
  (count is_viz tr <= 1)%nat /\
  (count is_restart tr <= 1)%nat /\
  count is_allreduce tr = b2n (check_step step (nhealth cfg)) /\
  reductions_first tr = true.
Proof.
  unfold my_pre_step, my_graceful_exit, my_write_viz, my_write_restart.
  destruct (health_check_shape check_naninf_local check_range_local
              compare_fluid_solutions cfg state (dependent_vars state)
              (initializer t))
    as (htr & h & H & Hlog).
  rewrite H.
  pose proof (health_logs_own step t state htr Hlog) as Hown.
  destruct (logmgr cfg), (check_step step (nhealth cfg)),
    (check_step step (nviz cfg)), (check_step step (nrestart cfg)),
    (check_step step (nstatus cfg)), (at_restart cfg step),
    (rank cfg =? 0);
    cbn -[count reductions_first]; try destruct (comm h);
    cbn -[count reductions_first];
    (split; [|split; [|split; [|split]]]);
    try (tally2 htr Hlog);
    try (intros e; rewrite <- ?app_assoc; cbn [app];
         rewrite ?in_app_iff; cbn [In];
         intuition (subst; cbn; auto));
    try (rewrite <- ?app_assoc; cbn [app reductions_first is_viz is_restart orb negb andb];
         rewrite ?(reductions_first_logs htr _ Hlog); reflexivity).
Qed.

(** Whatever the call, [my_pre_step] either raises the fatal error of
    the graceful exit, exactly when the health check is due and its
    reduced result is true, or returns the very state and step size it
    was given. *)
Theorem pre_step_passes_state_through (comm : bool -> bool) (step : Z)
    (t dt : Q) (state : State) :
  snd (pre_step comm step t dt state) =
    if check_step step (nhealth cfg) && comm (verdict state t)
    then Raise (RuntimeError "Error detected at prestep, exiting.")
    else Ok (state, dt).
Proof.
  exact (proj1 (pre_step_summary dependent_vars initializer state_sub
                  check_naninf_local check_range_local
                  compare_fluid_solutions check_step cfg comm step t dt
                  state)).
Qed.

(** Every file [my_pre_step] writes is for the step, time and state of
    the call and under the worker's own rank, and a call writes at most
    one visualization file and at most one restart file: the graceful
    exit never repeats a write the periodic policy has made. *)
Theorem pre_step_writes_own_files (comm : bool -> bool) (step : Z)
    (t dt : Q) (state : State) :
  let tr := fst (pre_step comm step t dt state) in
  (forall e, In e tr -> own_write cfg step t state e) /\
  (count is_viz tr <= 1)%nat /\ (count is_restart tr <= 1)%nat.
Proof.
  destruct (pre_step_details comm step t dt state) as (A & B & C & _).
  now repeat split.
Qed.

(** [my_pre_step] enters the reduction exactly once when the health
    check is due and not at all otherwise, whatever the state, the local
    verdict and the rank, and it does so before it writes any file: no
    worker skips the collective or is writing while others wait in it. *)
Theorem pre_step_reduction_discipline (comm : bool -> bool) (step : Z)
    (t dt : Q) (state : State) :
  let tr := fst (pre_step comm step t dt state) in
  count is_allreduce tr = b2n (check_step step (nhealth cfg)) /\
  reductions_first tr = true.
Proof.
  destruct (pre_step_details comm step t dt state) as (_ & _ & _ & A & B).
  now split.
Qed.

(** A run started with [rst_step = 0] is not a restart: [if rst_step:]
    is false and the run starts from step 0.  Its pre-step at step 0
    nevertheless skips the periodic visualization and restart writes,
    which a run started with [rst_step = None] makes when their
    intervals are due. *)
Theorem zero_restart_step (comm : bool -> bool) (t dt : Q) (state : State) :
  let tr := fst (pre_step comm (first_step (rst_step cfg)) t dt state) in
  check_step 0 (nhealth cfg) && comm (verdict state t) = false ->
  (rst_step cfg = Some 0 ->
   truthy (rst_step cfg) = false /\ first_step (rst_step cfg) = 0 /\
   count (is_viz_write 0) tr = 0%nat /\
   count (is_restart_write 0) tr = 0%nat) /\
  (rst_step cfg = None ->
   truthy (rst_step cfg) = false /\ first_step (rst_step cfg) = 0 /\
   count (is_viz_write 0) tr = b2n (check_step 0 (nviz cfg)) /\
   count (is_restart_write 0) tr = b2n (check_step 0 (nrestart cfg))).
Proof.
  intros tr F.
  split; intros R; subst tr; rewrite R; cbn [first_step truthy Z.eqb negb];
    destruct (pre_step_summary dependent_vars initializer state_sub
                check_naninf_local check_range_local compare_fluid_solutions
                check_step cfg comm 0 t dt state) as (_ & Hv & Hr & _);
    unfold failed, periodic, at_restart in Hv, Hr; rewrite F, R in Hv, Hr;
    cbn in Hv, Hr; now repeat split.
Qed.

Lemma health_verdict_value (state : State) (t : Q) :
  verdict state t =
  check_naninf_local (dependent_vars state)
  || check_range_local (dependent_vars state) 0.9%float 1.1%float
  || (exittol <? py_max (compare_fluid_solutions state (initializer t)))%float.
Proof.
  unfold health_verdict, my_health_check.
  destruct (check_naninf_local (dependent_vars state)),
    (check_range_local (dependent_vars state) 0.9%float 1.1%float),
    (exittol <? py_max (compare_fluid_solutions state (initializer t)))%float,
    (rank cfg =? 0); reflexivity.
Qed.

(** The health check on Python floats.  It reports an error exactly
    when the pressure holds a NaN or an infinity, or leaves the range
    from 0.9 to 1.1, or [max(component_errors)] exceeds
    [exittol = 0.09].  When the first component error is not NaN, the
    last means that some component error exceeds [exittol]; when it is
    NaN, [max] returns that NaN, the comparison is false and the
    pressure checks alone decide. *)
Theorem health_verdict_spec (state : State) (t : Q) :
  let dv := dependent_vars state in
  let errors := compare_fluid_solutions state (initializer t) in
  let pressure :=
    check_naninf_local dv || check_range_local dv 0.9%float 1.1%float in
  (PrimFloat.is_nan (fst errors) = false ->
   (verdict state t = true <->
    pressure = true \/
    exists e, In e (fst errors :: snd errors) /\
              (exittol <? e)%float = true)) /\
  (PrimFloat.is_nan (fst errors) = true -> verdict state t = pressure).
Proof.
  cbn zeta. rewrite health_verdict_value.
  set (errors := compare_fluid_solutions state (initializer t)).
  set (pressure := check_naninf_local (dependent_vars state)
                   || check_range_local (dependent_vars state) 0.9 1.1).
  split; intros N.
  - rewrite orb_true_iff, (py_max_exceeds errors exittol N). reflexivity.
  - unfold py_max. rewrite (py_max_nan_first (snd errors) (fst errors) N).
    destruct (compare_nan (fst errors) exittol N) as (_ & _ & _ & -> & _).
    apply orb_false_r.
Qed.

End PreStep.

Section Workers.

Context {State DV : Type}.
Variable dependent_vars : State -> DV.
Variable initializer : Q -> State.
Variable state_sub : State -> State -> State.
Variable check_naninf_local : DV -> bool.
Variable check_range_local : DV -> float -> float -> bool.
Variable compare_fluid_solutions : State -> State -> float * list float.
Variable check_step : Z -> Z -> bool.
Variable cfg : settings.

(** All workers of a run leave [my_pre_step] the same way: every one of
    them raises the fatal error if the health check is due and the
    local verdict of some worker is true, and otherwise every one
    returns its own state and the step size. *)
Theorem workers_share_outcome (workers : list (Z * State)) (step : Z)
    (t dt : Q) (i : nat) (w : Z * State) :
  nth_error workers i = Some w ->
  snd (worker_pre_step dependent_vars initializer state_sub
         check_naninf_local check_range_local compare_fluid_solutions
         check_step cfg workers i w step t dt) =
    if check_step step (nhealth cfg) &&
       existsb id
         (map (local_flag dependent_vars initializer check_naninf_local
                 check_range_local compare_fluid_solutions cfg t) workers)
    then Raise (RuntimeError "Error detected at prestep, exiting.")
    else Ok (snd w, dt).
Proof.
  intros Hi. unfold worker_pre_step.
  set (flags := map (local_flag dependent_vars initializer check_naninf_local
                       check_range_local compare_fluid_solutions cfg t)
                    workers).
  destruct (pre_step_summary dependent_vars initializer state_sub
              check_naninf_local check_range_local compare_fluid_solutions
              check_step (with_rank cfg (fst w))
              (allreduce_LOR (others i flags)) step t dt (snd w))
    as (Hr & _).
  rewrite Hr. unfold failed. cbn [nhealth with_rank].
  rewrite (allreduce_all_workers i flags); [reflexivity|].
  subst flags. now rewrite nth_error_map, Hi.
Qed.

End Workers.

Section Finish.

Context {State DV : Type}.
Variable dependent_vars : State -> DV.
Variable initializer : Q -> State.
Variable state_sub : State -> State -> State.
Variable cfg : settings.

(** The tail of [main] writes only files for the final step, time and
    state under the worker's own rank.  When its finish check passes it
    closes the log manager iff there is one, and prints the profile iff
    there is none and profiling is on; when the check fails it does
    neither. *)
Theorem finish_trace (step : Z) (t : Q) (state : State) :
  let fin := main_after_advance dependent_vars initializer state_sub cfg
               step t state in
  (forall e, In e (fst fin) -> own_write cfg step t state e) /\
  (snd fin = Ok tt ->
   count is_logmgr_close (fst fin) = b2n (logmgr cfg) /\
   count is_print_profile (fst fin)
     = b2n (negb (logmgr cfg) && use_profiling cfg)) /\
  (forall e, snd fin = Raise e ->
   count is_logmgr_close (fst fin) = 0%nat /\
   count is_print_profile (fst fin) = 0%nat).
Proof.
  unfold main_after_advance, my_graceful_exit, my_write_viz, my_write_restart.
  destruct (Qle_bool (Qabs (t - t_final cfg)) finish_tol), (rank cfg =? 0),
    (logmgr cfg), (use_profiling cfg);
    cbn -[count];
    (split;
     [intros e; cbn [In]; intuition (subst; cbn; auto)
     |split;
      [intros E; try discriminate E; split; reflexivity
      |intros e E; try discriminate E; split; reflexivity]]).
Qed.

End Finish.
End PreStepExtras.

Module RestartFilesFacts.
Import ScalarLump.

Lemma append_cancel_left (a b c : string) :
  (a ++ b)%string = (a ++ c)%string -> b = c.
Proof.
  induction a as [|x a IH]; cbn; intros H; [exact H|].
  inversion H. now apply IH.
Qed.

Lemma all_digits_append (a b : string) :
  all_digits (a ++ b)%string = all_digits a && all_digits b.
Proof.
  induction a as [|x a IH]; cbn; [reflexivity|].
  now rewrite IH, andb_assoc.
Qed.

Lemma all_digits_zeros (k : nat) : all_digits (zeros k) = true.
Proof. induction k; cbn; trivial. Qed.

Lemma uint_digits (d : Decimal.uint) :
  all_digits (NilEmpty.string_of_uint d) = true.
Proof. induction d; cbn; trivial. Qed.

Lemma decimal_is_uint (n : N) :
  decimal n = NilEmpty.string_of_uint (N.to_uint n) /\
  N.to_uint n <> Decimal.Nil.
Proof.
  unfold decimal. destruct n as [|p]; cbn.
  - split; [reflexivity|discriminate].
  - pose proof (DecimalPos.Unsigned.to_uint_nonnil p) as H.
    split; [|exact H]. now destruct (Pos.to_uint p).
Qed.

Lemma decimal_digits (n : N) :
  all_digits (decimal n) = true /\ decimal n <> EmptyString.
Proof.
  destruct (decimal_is_uint n) as (E & N0). rewrite E. split.
  - apply uint_digits.
  - destruct (N.to_uint n); try contradiction; discriminate.
Qed.

Lemma digits_value_zeros (k : nat) (s : string) :
  digits_value (zeros k ++ s)%string = digits_value s.
Proof.
  unfold digits_value. induction k as [|k IH]; cbn; [reflexivity|].
  destruct (NilEmpty.uint_of_string (zeros k ++ s)%string) as [d|];
    destruct (NilEmpty.uint_of_string s) as [d'|]; cbn in *;
    try discriminate; trivial.
Qed.

Lemma digits_value_decimal (k : nat) (n : N) :
  digits_value (zeros k ++ decimal n)%string = Some n.
Proof.
  rewrite digits_value_zeros. unfold digits_value.
  destruct (decimal_is_uint n) as (E & _). rewrite E, NilEmpty.usu. cbn.
  now rewrite DecimalN.Unsigned.of_to.
Qed.

(** Digits up to a separator that is not a digit: the separator is found
    at the same place. *)
Lemma digits_until (sep : ascii) (u : string) : forall (u' x x' : string),
  is_digit sep = false ->
  all_digits u = true -> all_digits u' = true ->
  (u ++ String sep x)%string = (u' ++ String sep x')%string ->
  u = u' /\ x = x'.
Proof.
  induction u as [|c u IH]; intros [|c' u'] x x' S D D' E; cbn in *.
  - inversion E. now split.
  - inversion E; subst. apply andb_prop in D' as [D' _]. congruence.
  - inversion E; subst. apply andb_prop in D as [D _]. congruence.
  - inversion E; subst. apply andb_prop in D as [_ D].
    apply andb_prop in D' as [_ D'].
    destruct (IH u' x x' S D D' H1) as [-> ->]. now split.
Qed.

Lemma padded_digits (k : nat) (n : N) :
  all_digits (zeros k ++ decimal n)%string = true /\
  exists c rest, (zeros k ++ decimal n)%string = String c rest /\
                 is_digit c = true.
Proof.
  destruct (decimal_digits n) as (D & NE).
  assert (A : all_digits (zeros k ++ decimal n)%string = true)
    by now rewrite all_digits_append, all_digits_zeros, D.
  split; [exact A|].
  destruct (zeros k ++ decimal n)%string as [|c rest] eqn:E.
  - destruct k; cbn in E; [contradiction|discriminate].
  - exists c, rest. split; [reflexivity|]. cbn in A.
    now apply andb_prop in A as [A _].
Qed.

(** A formatted number followed by a separator that is neither a digit
    nor the sign ends where the separator is. *)
Lemma format_d_until (sep : ascii) (w : nat) (z z' : Z) (x x' : string) :
  is_digit sep = false ->
  (format_d w z ++ String sep x)%string
    = (format_d w z' ++ String sep x')%string ->
  format_d w z = format_d w z' /\ x = x'.
Proof.
  intros S. unfold format_d.
  set (k := fun z : Z => (w - 1 - String.length (decimal (Z.abs_N z)))%nat).
  set (k0 := fun z : Z => (w - String.length (decimal (Z.abs_N z)))%nat).
  destruct (padded_digits (k z) (Z.abs_N z)) as (D1 & c1 & r1 & E1 & C1).
  destruct (padded_digits (k z') (Z.abs_N z')) as (D1' & c1' & r1' & E1' & C1').
  destruct (padded_digits (k0 z) (Z.abs_N z)) as (D0 & c0 & r0 & E0 & C0).
  destruct (padded_digits (k0 z') (Z.abs_N z')) as (D0' & c0' & r0' & E0' & C0').
  fold (k z) (k z') (k0 z) (k0 z').
  destruct (z <? 0), (z' <? 0); cbn; intros E.
  - inversion E as [E2].
    destruct (digits_until sep _ _ x x' S D1 D1' E2) as [-> ->]. now split.
  - rewrite E0' in E. cbn in E. inversion E; subst c0'. discriminate C0'.
  - rewrite E0 in E. cbn in E. inversion E; subst c0. discriminate C0.
  - exact (digits_until sep _ _ x x' S D0 D0' E).
Qed.

Lemma format_d_injective (w : nat) (z z' : Z) :
  format_d w z = format_d w z' -> z = z'.
Proof.
  unfold format_d.
  set (k := fun z : Z => (w - 1 - String.length (decimal (Z.abs_N z)))%nat).
  set (k0 := fun z : Z => (w - String.length (decimal (Z.abs_N z)))%nat).
  destruct (padded_digits (k0 z) (Z.abs_N z)) as (_ & c0 & r0 & E0 & C0).
  destruct (padded_digits (k0 z') (Z.abs_N z')) as (_ & c0' & r0' & E0' & C0').
  fold (k z) (k z') (k0 z) (k0 z').
  destruct (z <? 0) eqn:Sz, (z' <? 0) eqn:Sz'; intros E.
  - inversion E as [E2]. apply (f_equal digits_value) in E2.
    rewrite !digits_value_decimal in E2. inversion E2.
    apply Z.ltb_lt in Sz, Sz'. lia.
  - rewrite E0' in E. inversion E; subst c0'. discriminate C0'.
  - rewrite E0 in E. inversion E; subst c0. discriminate C0.
  - apply (f_equal digits_value) in E.
    rewrite !digits_value_decimal in E. inversion E.
    apply Z.ltb_ge in Sz, Sz'. lia.
Qed.

(** Restart files of one case have the same name only for the same
    step and the same rank: no worker writes the file of another, and
    no step overwrites another. *)
Theorem rst_fname_injective (casename : string) (step rank step' rank' : Z) :
  rst_fname casename step rank = rst_fname casename step' rank' ->
  step = step' /\ rank = rank'.
Proof.
  unfold rst_fname. intros E.
  apply append_cancel_left, append_cancel_left in E.
  change ("-" ++ ?x)%string with (String "-" x) in E. cbn [append] in E.
  inversion E as [E1]. clear E.
  destruct (format_d_until "-" 4 step step' _ _ eq_refl E1) as (Es & E2).
  change (".pkl")%string with (String "." "pkl") in E2.
  destruct (format_d_until "." 4 rank rank' _ _ eq_refl E2) as (Er & _).
  split; now apply (format_d_injective 4).
Qed.

End RestartFilesFacts.

Module RestartDataFacts.
Import ScalarLump.

Section Dictionary.

Context {Obj : Type}.
Variable nelements : Obj -> restart_error + Obj.
Variable equals : Obj -> Z -> restart_error + bool.

Lemma getitem_in (d : list (string * Obj)) (key : string) (v : Obj) :
  getitem d key = inr v -> In key (map fst d).
Proof.
  induction d as [|[k x] d IH]; cbn; [discriminate|].
  destruct (String.eqb k key) eqn:E.
  - apply String.eqb_eq in E. now left.
  - intros H. right. now apply IH.
Qed.

(** A dictionary from which [main] gets its mesh has the three keys it
    asks for. *)
Lemma mesh_from_restart_keys (d : list (string * Obj)) (nparts : Z)
    (r : Obj * Obj * Obj) :
  mesh_from_restart nelements equals d nparts = inr r ->
  In "local_mesh" (map fst d) /\ In "global_nelements" (map fst d) /\
  In "nparts" (map fst d).
Proof.
  unfold mesh_from_restart.
  destruct (getitem d "local_mesh") as [|m] eqn:M; [discriminate|].
  destruct (nelements m); [discriminate|].
  destruct (getitem d "global_nelements") as [|g] eqn:G; [discriminate|].
  destruct (getitem d "nparts") as [|p] eqn:P; [discriminate|].
  intros _. repeat split; eapply getitem_in; eauto.
Qed.

(** The dictionary [my_write_restart] assembles records the number of
    parts under ["num_parts"], while the restart branch of [main] asks
    restart data for ["nparts"]: handed back such a dictionary, [main]
    never gets its mesh out of it, and with a mesh that has an element
    count it stops with [KeyError] for ["nparts"]. *)
Theorem written_restart_data_unreadable
    (local_mesh state t step global_nelements nparts : Obj) (expected : Z) :
  (forall r, mesh_from_restart nelements equals
               (rst_data local_mesh state t step global_nelements nparts)
               expected <> inr r) /\
  (forall n, nelements local_mesh = inr n ->
     mesh_from_restart nelements equals
       (rst_data local_mesh state t step global_nelements nparts) expected
       = inl (KeyError "nparts")).
Proof.
  split.
  - intros r H. apply mesh_from_restart_keys in H as (_ & _ & H).
    cbn in H. intuition discriminate.
  - intros n N. unfold mesh_from_restart. cbn. now rewrite N.
Qed.

End Dictionary.

End RestartDataFacts.

Module ScalarLumpExamples.
Import ScalarLump PreStepExtras RestartFilesFacts.

Lemma workers_share_outcome_witness :
  snd (worker_pre_step (fun s => s) (fun _ => false) xorb
         (fun dv => dv) (fun _ _ _ => false) (fun _ _ => (0%float, []))
         Simutil.check_step (source_settings 0 None)
         [(0, false); (1, true); (2, false)] 2 (2, false)
         3 (3 # 1000) (1 # 1000))
  = Raise (RuntimeError "Error detected at prestep, exiting.").
Proof.
  apply (workers_share_outcome (fun s => s) (fun _ => false) xorb
           (fun dv => dv) (fun _ _ _ => false) (fun _ _ => (0%float, []))
           Simutil.check_step (source_settings 0 None)
           [(0, false); (1, true); (2, false)] 3 (3 # 1000) (1 # 1000)
           2%nat (2, false)).
  reflexivity.
Defined.

Lemma zero_restart_step_witness :
  let tr := fst (sample_pre_step (source_settings 0 (Some 0))
                   (allreduce_LOR []) 0 false) in
  Simutil.check_step 0 (nviz (source_settings 0 (Some 0))) = true /\
  count (is_viz_write 0) tr = 0%nat /\ count (is_restart_write 0) tr = 0%nat.
Proof.
  split; [reflexivity|].
  apply (proj1 (zero_restart_step (fun s => s) (fun _ => false) xorb
                  (fun dv => dv) (fun _ _ _ => false) (fun _ _ => (0%float, []))
                  Simutil.check_step (source_settings 0 (Some 0))
                  (allreduce_LOR []) (5 # 1000) (1 # 1000) false eq_refl)
               eq_refl).
Defined.

Lemma rst_fname_injective_witness :
  (5 = 5 /\ 12 = 12)%Z.
Proof.
  apply (rst_fname_injective "lumpy-scalars" 5 12 5 12). reflexivity.
Defined.

End ScalarLumpExamples.
